(** * cachelib.redis.RedisCache: codec, timeout normalisation and store dispatch

    A shallow embedding of [src/cachelib/redis.py].  Python values are an
    inductive type, exceptions are an error monad, the redis client is a
    command interface whose calls are recorded, and [pickle] is an interface
    with one concrete implementation of a fragment.

    Conventions.  A Python [int] is a [Z]; [str] and [int] convert at most
    [int_max_str_digits] decimal digits and raise [ValueError] beyond, as the
    interpreter does.  [bytes] are lists of [byte], [str] keys are [string]s.  The redis server
    and the [pickle] module are not part of the repository: the first is
    modelled by a reference store, the second by its interface, and facts that
    hold for every client or every pickle implementation are stated so. *)

From Stdlib Require Import ZArith Strings.Byte Strings.String DecimalZ DecimalPos.
From stdpp Require Import gmap strings list.

Open Scope Z_scope.

(** ** Python runtime: bytes, exceptions, values *)

Abbreviation bytes := (list byte).

(** A [bytes] literal [b"..."]. *)
Definition lit (s : string) : bytes := list_byte_of_string s.

(** The exception classes that can reach this module. *)
Inductive exn : Set :=
  | ValueError | RuntimeError | TypeError | EOFError
  | PickleError | PicklingError | UnpicklingError
  | ResponseError | ConnectionError.

(** [isinstance(e, pickle.PickleError)]: the class and its two subclasses. *)
Definition is_PickleError (e : exn) : bool :=
  match e with
  | PickleError | PicklingError | UnpicklingError => true
  | _ => false
  end.

(** [isinstance(e, ValueError)]. *)
Definition is_ValueError (e : exn) : bool :=
  match e with ValueError => true | _ => false end.

(** A computation either returns or raises. *)
Inductive result (A : Type) : Type :=
  | Ret (a : A)
  | Raise (e : exn).
Arguments Ret {A} a.
Arguments Raise {A} e.

#[global] Instance result_ret : MRet result := @Ret.
#[global] Instance result_bind : MBind result := λ A B k r,
  match r with
  | Ret a => k a
  | Raise e => Raise e
  end.

(** [try: body  except cls: handler]: only exceptions of the named class are
    caught, every other one propagates. *)
Definition try_except {A} (body : result A) (cls : exn → bool)
    (handler : result A) : result A :=
  match body with
  | Ret a => Ret a
  | Raise e => if cls e then handler else Raise e
  end.

Definition returns {A} (r : result A) : Prop := ∃ a, r = Ret a.

#[local] Set Warnings "-register-all".

(** The Python objects that pass through the cache in this development. *)
Inductive PyVal : Type :=
  | PyNone
  | PyBool (b : bool)
  | PyInt (n : Z)
  | PyBytes (s : bytes)
  | PyTuple (items : list PyVal).

(** [type(value) == int]: an exact type test, so [bool] (a subclass of [int])
    does not pass. *)
Definition type_is_int (value : PyVal) : bool :=
  match value with PyInt _ => true | _ => false end.

(** Truth value of an object, as [if x:] and [and] test it. *)
Definition truthy (value : PyVal) : bool :=
  match value with
  | PyNone => false
  | PyBool b => b
  | PyInt n => negb (n =? 0)
  | PyBytes s => negb (bool_decide (s = []))
  | PyTuple items => match items with [] => false | _ => true end
  end.

(** ** Integers as ASCII text: [str(n).encode("ascii")] and [int(b)] *)

Fixpoint uint_bytes (d : Decimal.uint) : bytes :=
  match d with
  | Decimal.Nil => []
  | Decimal.D0 d => "0"%byte :: uint_bytes d
  | Decimal.D1 d => "1"%byte :: uint_bytes d
  | Decimal.D2 d => "2"%byte :: uint_bytes d
  | Decimal.D3 d => "3"%byte :: uint_bytes d
  | Decimal.D4 d => "4"%byte :: uint_bytes d
  | Decimal.D5 d => "5"%byte :: uint_bytes d
  | Decimal.D6 d => "6"%byte :: uint_bytes d
  | Decimal.D7 d => "7"%byte :: uint_bytes d
  | Decimal.D8 d => "8"%byte :: uint_bytes d
  | Decimal.D9 d => "9"%byte :: uint_bytes d
  end.

(** The decimal numeral of [n], ["-"] in front of a negative one: the text
    that [str(n)] builds when it builds one (see [str_encode_ascii] for the
    conversion itself, which can refuse).  It is also the text in which the
    redis server keeps a number. *)
Definition str_int (n : Z) : bytes :=
  match Z.to_int n with
  | Decimal.Pos d => uint_bytes d
  | Decimal.Neg d => "-"%byte :: uint_bytes d
  end.

(** [Py_ISSPACE]: space, and the controls tab to carriage return. *)
Definition is_space (c : byte) : bool :=
  let k := Z.of_N (Byte.to_N c) in (k =? 32) || ((9 <=? k) && (k <=? 13)).

Definition digit_val (c : byte) : option Z :=
  let k := Z.of_N (Byte.to_N c) in
  if (48 <=? k) && (k <=? 57) then Some (k - 48) else None.

Definition is_digit (c : byte) : bool :=
  match digit_val c with Some _ => true | None => false end.

Definition is_underscore (c : byte) : bool := Byte.eqb c "_"%byte.

Fixpoint skip_space (s : bytes) : bytes :=
  match s with
  | c :: s' => if is_space c then skip_space s' else s
  | [] => []
  end.

(** What the digit scanner has just read. *)
Inductive scan_state : Set := AtStart | AfterDigit | AfterUnderscore.

(** The digit loop of [int()]: digits, with single underscores allowed
    between two digits; returns the value read and the unread rest. *)
Fixpoint scan_digits (st : scan_state) (acc : Z) (s : bytes)
    : option (Z * bytes) :=
  let stop := match st with AfterDigit => Some (acc, s) | _ => None end in
  match s with
  | [] => stop
  | c :: s' =>
      match digit_val c with
      | Some d => scan_digits AfterDigit (10 * acc + d) s'
      | None =>
          if is_underscore c then
            match st with
            | AfterDigit => scan_digits AfterUnderscore acc s'
            | _ => None
            end
          else stop
      end
  end.

(** The sign character, if any: the multiplier and the rest. *)
Definition read_sign (s : bytes) : Z * bytes :=
  match s with
  | c :: s' =>
      if Byte.eqb c "-"%byte then (-1, s')
      else if Byte.eqb c "+"%byte then (1, s')
      else (1, s)
  | [] => (1, [])
  end.

(** The literal scanner of [int(b)] for a [bytes] argument, base 10:
    surrounding white space, one optional sign, then the digits; anything
    left over is an error.  It validates the text and gives its value; the
    conversion [int(b)] itself is [int_of_bytes], which also enforces the
    limit on the number of digits. *)
Definition parse_int (s : bytes) : option Z :=
  let '(sign, s1) := read_sign (skip_space s) in
  match scan_digits AtStart 0 s1 with
  | Some (n, rest) =>
      match skip_space rest with
      | [] => Some (sign * n)
      | _ :: _ => None
      end
  | None => None
  end.

(** The spec's first wire shape: ASCII decimal digits, optionally after one
    leading ["-"]. *)
Definition all_digits (s : bytes) : bool :=
  negb (bool_decide (s = [])) && forallb is_digit s.

Definition plain_decimal (s : bytes) : bool :=
  match s with
  | c :: s' => if Byte.eqb c "-"%byte then all_digits s' else all_digits s
  | [] => false
  end.

(** *** The interpreter's limit on integer conversions

    CPython refuses to convert between [int] and decimal text when more than
    [sys.get_int_max_str_digits()] digits are involved, and raises
    [ValueError] (CPython 3.11, and 3.7 to 3.10 since their security
    releases of September 2022).  The limit is 4300 unless the interpreter
    is configured otherwise, which this module never does; a limit of [0]
    would switch the check off. *)
Definition int_max_str_digits : Z := 4300.

(** The decimal digits in a text.  [int()] counts them while it scans a
    literal: underscores, the sign and white space are not digits, leading
    zeros are.  For [str()] they are the characters of the numeral without
    its sign. *)
Fixpoint digit_count (s : bytes) : nat :=
  match s with
  | c :: s' => (if is_digit c then 1 else 0) + digit_count s'
  | [] => 0
  end.

(** [(max_str_digits > 0) && (digits > max_str_digits)]. *)
Definition over_digit_limit (digits : nat) : bool :=
  (0 <? int_max_str_digits) && (int_max_str_digits <? Z.of_nat digits).

(** [str(n).encode("ascii")]: [ValueError] when the numeral has more digits
    than the limit, the numeral otherwise.  The numeral is ASCII, so the
    encoding itself cannot fail. *)
Definition str_encode_ascii (n : Z) : result bytes :=
  let text := str_int n in
  if over_digit_limit (digit_count text) then Raise ValueError else Ret text.

(** [int(s)] for a [bytes] argument: [ValueError] for a text that is no
    literal, and for a literal of more digits than the limit. *)
Definition int_of_bytes (s : bytes) : result Z :=
  match parse_int s with
  | Some n =>
      if over_digit_limit (digit_count s) then Raise ValueError else Ret n
  | None => Raise ValueError
  end.

(** An [int] whose numeral [str()] converts is one of at most
    [int_max_str_digits] digits: less than [10 ^ int_max_str_digits] in
    absolute value.  Values of other types are not concerned. *)
Definition in_digit_limit (value : PyVal) : Prop :=
  match value with
  | PyInt n => Z.abs n < 10 ^ int_max_str_digits
  | _ => True
  end.

(** *** The literals [int()] accepts, as a grammar *)

(** What may follow a digit: nothing more, a digit, or one underscore and
    a digit. *)
Inductive digits_tail : bytes → Prop :=
  | tail_end : digits_tail []
  | tail_digit c s :
      is_digit c = true → digits_tail s → digits_tail (c :: s)
  | tail_sep c s :
      is_digit c = true → digits_tail s → digits_tail ("_"%byte :: c :: s).

(** Digits in groups: a digit first, single underscores only between digits. *)
Inductive digit_groups : bytes → Prop :=
  | groups_intro c s :
      is_digit c = true → digits_tail s → digit_groups (c :: s).

(** The number a run of digits spells, underscores passed over. *)
Definition digits_value (acc : Z) (s : bytes) : Z :=
  foldl (λ acc c, match digit_val c with Some d => 10 * acc + d | None => acc end)
    acc s.

Inductive sign_prefix : bytes → Z → Prop :=
  | sign_none : sign_prefix [] 1
  | sign_plus : sign_prefix ["+"%byte] 1
  | sign_minus : sign_prefix ["-"%byte] (-1).

(** [s] is a literal of [n]: white space, a sign, digit groups, white space. *)
Inductive int_literal (s : bytes) (n : Z) : Prop :=
  | IntLiteral ws1 sg k body ws2 :
      s = ws1 ++ sg ++ body ++ ws2 →
      forallb is_space ws1 = true →
      forallb is_space ws2 = true →
      sign_prefix sg k →
      digit_groups body →
      n = k * digits_value 0 body →
      int_literal s n.

(** The value [scan_digits] has accumulated once it has read the numeral. *)
Fixpoint uint_value (acc : Z) (d : Decimal.uint) : Z :=
  match d with
  | Decimal.Nil => acc
  | Decimal.D0 d => uint_value (10 * acc + 0) d
  | Decimal.D1 d => uint_value (10 * acc + 1) d
  | Decimal.D2 d => uint_value (10 * acc + 2) d
  | Decimal.D3 d => uint_value (10 * acc + 3) d
  | Decimal.D4 d => uint_value (10 * acc + 4) d
  | Decimal.D5 d => uint_value (10 * acc + 5) d
  | Decimal.D6 d => uint_value (10 * acc + 6) d
  | Decimal.D7 d => uint_value (10 * acc + 7) d
  | Decimal.D8 d => uint_value (10 * acc + 8) d
  | Decimal.D9 d => uint_value (10 * acc + 9) d
  end.

(** Where the digit loop stops: at the end, or before a byte that is neither
    a digit nor an underscore. *)
Definition stops_scan (rest : bytes) : Prop :=
  match rest with
  | [] => True
  | c :: _ => digit_val c = None ∧ is_underscore c = false
  end.

(** The number a text of the first wire shape spells. *)
Definition plain_value (s : bytes) : Z :=
  match s with
  | c :: s' =>
      if Byte.eqb c "-"%byte then - digits_value 0 s' else digits_value 0 s
  | [] => 0
  end.

(** ** The [pickle] module, as far as this code uses it *)

Class Pickle : Type := {
  pickle_dumps : PyVal → result bytes;
  pickle_loads : bytes → result PyVal;
}.

(** A value the serializer supports: it pickles, and the payload unpickles to
    the same value. *)
Definition pickle_supports `{Pickle} (v : PyVal) : Prop :=
  ∃ d, pickle_dumps v = Ret d ∧ pickle_loads d = Ret v.

(** ** The codec of [RedisCache] *)

Definition tag : byte := "!"%byte.

(** [value.startswith(b"!")]. *)
Definition startswith_tag (value : bytes) : bool :=
  match value with
  | c :: _ => Byte.eqb c tag
  | [] => false
  end.

Section Codec.
Context `{Pickle}.

(** [if type(value) == int:] is the first arm of the match; [str] and
    [pickle.dumps] may raise, and then so does [dump_object]. *)
Definition dump_object (value : PyVal) : result bytes :=
  match value with
  | PyInt n => str_encode_ascii n
  | _ => d ← pickle_dumps value; Ret (tag :: d)
  end.

(** [value[1:]] is [drop 1 value]; the two [try] statements catch one class
    each. *)
Definition load_object (value : option bytes) : result PyVal :=
  match value with
  | None => Ret PyNone
  | Some value =>
      if startswith_tag value then
        try_except (pickle_loads (drop 1 value)) is_PickleError (Ret PyNone)
      else
        try_except (n ← int_of_bytes value; Ret (PyInt n))
          is_ValueError (Ret (PyBytes value))
  end.
End Codec.

(** ** The redis client

    [self._client.f(args)] is a call [f args] of this interface; the client
    answers or raises.  The methods below are those of an instance whose
    [_client] attribute is bound. *)

Inductive cmd : Type :=
  | CGet (name : string)
  | CMGet (names : list string)
  | CSet (name : string) (value : bytes)
  | CSetex (name : string) (value : bytes) (time : Z)
  | CSetnx (name : string) (value : bytes)
  | CExpire (name : string) (time : Z)
  | CDelete (names : list string).

(** What redis-py hands back for each call. *)
Definition reply (c : cmd) : Type :=
  match c with
  | CGet _ => option bytes
  | CMGet _ => list (option bytes)
  | CSet _ _ | CSetex _ _ _ => option bool
  | CSetnx _ _ | CExpire _ _ => bool
  | CDelete _ => Z
  end.

(** A method body: it finishes, raises, or calls the client and goes on with
    the reply. *)
Inductive prog (A : Type) : Type :=
  | Done (a : A)
  | Throw (e : exn)
  | Call (c : cmd) (k : reply c → prog A).
Arguments Done {A} a.
Arguments Throw {A} e.
Arguments Call {A} c k.

Fixpoint prog_bind {A B} (k : A → prog B) (p : prog A) : prog B :=
  match p with
  | Done a => k a
  | Throw e => Throw e
  | Call c k' => Call c (λ r, prog_bind k (k' r))
  end.

#[global] Instance prog_ret : MRet prog := @Done.
#[global] Instance prog_mbind : MBind prog := @prog_bind.

Definition call (c : cmd) : prog (reply c) := Call c Done.

(** The client's methods, by the names redis-py gives them. *)
Definition client_get (name : string) : prog (option bytes) :=
  call (CGet name).
Definition client_mget (names : list string) : prog (list (option bytes)) :=
  call (CMGet names).
Definition client_set (name : string) (value : bytes) : prog (option bool) :=
  call (CSet name value).
Definition client_setex (name : string) (value : bytes) (time : Z)
    : prog (option bool) :=
  call (CSetex name value time).
Definition client_setnx (name : string) (value : bytes) : prog bool :=
  call (CSetnx name value).
Definition client_expire (name : string) (time : Z) : prog bool :=
  call (CExpire name time).
Definition client_delete (names : list string) : prog Z :=
  call (CDelete names).

(** A pure step inside a method body. *)
Definition lift {A} (r : result A) : prog A :=
  match r with
  | Ret a => Done a
  | Raise e => Throw e
  end.

(** A client: how it answers a call in a state, and the state it is left in. *)
Class Client (St : Type) : Type :=
  client_call : ∀ c : cmd, St → result (reply c) * St.

(** Running a method body against a client: the outcome, the final client
    state and the calls issued, in order.  A call that raises ends the run. *)
Fixpoint run {St} `{!Client St} {A} (p : prog A) (s : St)
    : result A * St * list cmd :=
  match p with
  | Done a => (Ret a, s, [])
  | Throw e => (Raise e, s, [])
  | Call c k =>
      match client_call c s with
      | (Ret r, s') => let '(out, s'', t) := run (k r) s' in (out, s'', c :: t)
      | (Raise e, s') => (Raise e, s', [c])
      end
  end.

(** ** The cache object *)

(** A client object, as far as construction is concerned: the arguments it
    was made from.  The constructor connects to nothing. *)
Record client_handle : Type := Redis {
  redis_host : string;
  redis_port : Z;
  redis_password : option string;
  redis_db : Z;
  redis_kwargs : gmap string PyVal;
}.

(** The class [redis.Redis], called as
    [redis.Redis(host=, port=, password=, db=, **kwargs)]: it returns a client
    or raises; redis-py raises [TypeError] on a keyword it does not know.
    redis-py is not part of the repository, so the class is a parameter of
    the constructor below. *)
Definition redis_class : Type :=
  string → Z → option string → Z → gmap string PyVal → result client_handle.

(** [import redis]: the module with its class, or [None] when the import
    raises [ImportError]. *)
Definition redis_module : Type := option redis_class.

(** The attributes of a [RedisCache]; [_client] is [None] while the attribute
    is unbound. *)
Record RedisCache : Type := {
  default_timeout : Z;
  _client : option client_handle;
  key_prefix : string;
}.

(** The [host] argument: [None], a string, or an object resembling a
    [redis.Redis] instance. *)
Inductive host_arg : Type :=
  | HostNone
  | HostStr (address : string)
  | HostObj (client : client_handle).

(** The truth value of a string: it is not empty. *)
Definition nonempty (s : string) : bool := negb (bool_decide (s = EmptyString)).

(** [key_prefix or ""]. *)
Definition or_empty (key_prefix : option string) : string :=
  match key_prefix with
  | Some s => if nonempty s then s else EmptyString
  | None => EmptyString
  end.

(** [kwargs.get("decode_responses", None)], taken as a condition. *)
Definition wants_decode_responses (kwargs : gmap string PyVal) : bool :=
  truthy (default PyNone (kwargs !! "decode_responses"%string)).

(** [RedisCache.__init__].  [redis] is what [import redis] finds in the
    running interpreter.  An exception of [redis.Redis(...)] is not caught
    and ends the construction.  The source binds [_client] inside
    [if isinstance(host, str):] only, and has no other branch.

    Modelled from the spec: [BaseCache.__init__] is in [cachelib/base.py],
    which is not among the sources; by the spec's data model it records
    [defaultTimeoutSeconds], here the attribute [default_timeout]. *)
Definition __init__ (redis : redis_module) (host : host_arg) (port : Z)
    (password : option string) (db : Z) (default_timeout : Z)
    (key_prefix : option string) (kwargs : gmap string PyVal)
    : result RedisCache :=
  match host with
  | HostNone => Raise ValueError
  | HostStr address =>
      match redis with
      | None => Raise RuntimeError
      | Some redis_Redis =>
          if wants_decode_responses kwargs then Raise ValueError
          else
            client ← redis_Redis address port password db kwargs;
            Ret {| default_timeout := default_timeout;
                   _client := Some client;
                   key_prefix := or_empty key_prefix |}
      end
  | HostObj _ =>
      Ret {| default_timeout := default_timeout;
             _client := None;
             key_prefix := or_empty key_prefix |}
  end.

(** ** Methods *)

Section Methods.
Context `{Pickle}.
Variable self : RedisCache.

(** Modelled from the spec: [BaseCache._normalize_timeout] is in
    [cachelib/base.py], which is not among the sources.  The spec: if the
    timeout is unspecified, substitute [defaultTimeoutSeconds]. *)
Definition BaseCache_normalize_timeout (timeout : option Z) : Z :=
  match timeout with
  | None => default_timeout self
  | Some t => t
  end.

Definition _normalize_timeout (timeout : option Z) : Z :=
  let timeout := BaseCache_normalize_timeout timeout in
  if timeout =? 0 then -1 else timeout.

(** [self.key_prefix + key]. *)
Definition physical (key : string) : string := key_prefix self +:+ key.

(** The two arms of [if self.key_prefix:] in the batch methods. *)
Definition prefixed_keys (keys : list string) : list string :=
  if nonempty (key_prefix self)
  then (λ key, key_prefix self +:+ key) <$> keys
  else (λ k, k) <$> keys.

Definition get (key : string) : prog PyVal :=
  x ← client_get (physical key); lift (load_object x).

Definition get_many (keys : list string) : prog (list PyVal) :=
  xs ← client_mget (prefixed_keys keys); lift (mapM load_object xs).

Definition set (key : string) (value : PyVal) (timeout : option Z)
    : prog (option bool) :=
  let timeout := _normalize_timeout timeout in
  dump ← lift (dump_object value);
  if timeout =? -1 then client_set (physical key) dump
  else client_setex (physical key) dump timeout.

(** [a and b] evaluates [b] only when [a] is true. *)
Definition add (key : string) (value : PyVal) (timeout : option Z)
    : prog bool :=
  let timeout := _normalize_timeout timeout in
  dump ← lift (dump_object value);
  ok ← client_setnx (physical key) dump;
  if (ok : bool) then client_expire (physical key) timeout else Done ok.

Definition delete_many (keys : list string) : prog (option Z) :=
  match keys with
  | [] => Done None
  | _ :: _ => n ← client_delete (prefixed_keys keys); Done (Some n)
  end.
End Methods.

(** ** A reference store

    The redis server as the client sees it: entries with an optional
    deadline, read against a clock. *)

Record entry : Type := Entry { payload : bytes; deadline : option Z }.

Record store : Type := Store { now : Z; entries : gmap string entry }.

Definition expired (st : store) (e : entry) : bool :=
  match deadline e with
  | Some d => d <=? now st
  | None => false
  end.

(** The entry under a name, if it is there and has not run out. *)
Definition live (st : store) (name : string) : option entry :=
  match entries st !! name with
  | Some e => if expired st e then None else Some e
  | None => None
  end.

Definition put (st : store) (name : string) (e : entry) : store :=
  Store (now st) (<[name := e]> (entries st)).

Definition remove (st : store) (name : string) : store :=
  Store (now st) (delete name (entries st)).

(** DEL: every name that is there is removed and counted. *)
Fixpoint delete_all (names : list string) (st : store) : Z * store :=
  match names with
  | [] => (0, st)
  | name :: names' =>
      match live st name with
      | Some _ => let '(n, st') := delete_all names' (remove st name) in (1 + n, st')
      | None => delete_all names' st
      end
  end.

(** Time passing on the server. *)
Definition advance (dt : Z) (st : store) : store :=
  Store (now st + dt) (entries st).

#[global] Instance store_client : Client store := λ c,
  match c as c' return store → result (reply c') * store with
  | CGet name => λ st, (Ret (payload <$> live st name), st)
  | CMGet names => λ st, (Ret ((λ name, payload <$> live st name) <$> names), st)
  | CSet name value => λ st, (Ret (Some true), put st name (Entry value None))
  | CSetex name value time => λ st,
      if time <=? 0 then (Raise ResponseError, st)
      else (Ret (Some true), put st name (Entry value (Some (now st + time))))
  | CSetnx name value => λ st,
      match live st name with
      | Some _ => (Ret false, st)
      | None => (Ret true, put st name (Entry value None))
      end
  | CExpire name time => λ st,
      match live st name with
      | Some e =>
          (Ret true,
           if time <=? 0 then remove st name
           else put st name (Entry (payload e) (Some (now st + time))))
      | None => (Ret false, st)
      end
  | CDelete names => λ st, let '(n, st') := delete_all names st in (Ret n, st')
  end.

(** ** A pickle implementation

    The pickler and the unpickling machine of [pickle], for the objects of
    [PyVal] and the opcodes that protocol 3 writes for them ([pickle.dumps]
    writes the interpreter's default protocol: 3 up to Python 3.7, and later
    unpicklers read it).  Objects are taken as unshared, so the pickler never
    writes a memo reference.  The machine raises what [pickle.loads] raises:
    [EOFError] when the input ends where an opcode is due, [ValueError] for a
    protocol number it does not know, [UnpicklingError] for truncated
    operands, stack underflow and a load key outside the fragment. *)

Module TinyPickle.

Definition byte_of_Z (z : Z) : byte :=
  match Byte.of_N (Z.to_N (z mod 256)) with
  | Some c => c
  | None => "000"%byte
  end.

Definition Z_of_byte (c : byte) : Z := Z.of_N (Byte.to_N c).

(** [n] bytes of [x], little end first, two's complement. *)
Fixpoint le_bytes (n : nat) (x : Z) : bytes :=
  match n with
  | O => []
  | S n' => byte_of_Z x :: le_bytes n' (x / 256)
  end.

Fixpoint le_unsigned (s : bytes) : Z :=
  match s with
  | [] => 0
  | c :: s' => Z_of_byte c + 256 * le_unsigned s'
  end.

Definition le_signed (s : bytes) : Z :=
  let u := le_unsigned s in
  let top := 256 ^ Z.of_nat (length s) in
  if 2 * u <? top then u else u - top.

Definition PROTO := byte_of_Z 128.
Definition STOP := "."%byte.
Definition NONE := "N"%byte.
Definition NEWTRUE := byte_of_Z 136.
Definition NEWFALSE := byte_of_Z 137.
Definition BININT := "J"%byte.
Definition BININT1 := "K"%byte.
Definition BININT2 := "M"%byte.
Definition LONG1 := byte_of_Z 138.
Definition LONG4 := byte_of_Z 139.
Definition BINBYTES := "B"%byte.
Definition SHORT_BINBYTES := "C"%byte.
Definition MARK := "("%byte.
Definition TUPLE := "t"%byte.
Definition EMPTY_TUPLE := ")"%byte.
Definition TUPLE1 := byte_of_Z 133.
Definition TUPLE2 := byte_of_Z 134.
Definition TUPLE3 := byte_of_Z 135.
Definition BINPUT := "q"%byte.
Definition LONG_BINPUT := "r"%byte.

Definition HIGHEST_PROTOCOL : Z := 5.

(** *** Pickler *)

(** [encode_long]: the shortest two's complement form, little end first. *)
Definition encode_long (x : Z) : bytes :=
  if x =? 0 then []
  else
    let nbytes := Z.to_nat ((Z.log2 (Z.abs x) + 1) / 8 + 1) in
    let result := le_bytes nbytes x in
    if (x <? 0) && (1 <? Z.of_nat nbytes) then
      match reverse result with
      | last :: before :: _ =>
          if (Z_of_byte last =? 255) && (128 <=? Z_of_byte before)
          then take (nbytes - 1)%nat result
          else result
      | _ => result
      end
    else result.

Definition save_long (obj : Z) : bytes :=
  if (0 <=? obj) && (obj <=? 255) then BININT1 :: le_bytes 1 obj
  else if (0 <=? obj) && (obj <=? 65535) then BININT2 :: le_bytes 2 obj
  else if (-2147483648 <=? obj) && (obj <=? 2147483647)
  then BININT :: le_bytes 4 obj
  else
    let encoded := encode_long obj in
    let n := Z.of_nat (length encoded) in
    if n <? 256 then LONG1 :: le_bytes 1 n ++ encoded
    else LONG4 :: le_bytes 4 n ++ encoded.

(** [memoize]: the object just written gets the next memo index. *)
Definition put (idx : Z) : bytes :=
  if idx <? 256 then BINPUT :: le_bytes 1 idx
  else LONG_BINPUT :: le_bytes 4 idx.

Definition save_bytes (obj : bytes) : bytes :=
  let n := Z.of_nat (length obj) in
  if n <=? 255 then SHORT_BINBYTES :: le_bytes 1 n ++ obj
  else BINBYTES :: le_bytes 4 n ++ obj.

(** [save]: the opcodes for an object, threading the size of the memo. *)
Fixpoint save (obj : PyVal) (memo : Z) : bytes * Z :=
  match obj with
  | PyNone => ([NONE], memo)
  | PyBool b => ([if b then NEWTRUE else NEWFALSE], memo)
  | PyInt n => (save_long n, memo)
  | PyBytes s => (save_bytes s ++ put memo, memo + 1)
  | PyTuple items =>
      let fix save_all (l : list PyVal) (memo : Z) : bytes * Z :=
        match l with
        | [] => ([], memo)
        | x :: l' =>
            let '(out1, memo1) := save x memo in
            let '(out2, memo2) := save_all l' memo1 in
            (out1 ++ out2, memo2)
        end in
      match items with
      | [] => ([EMPTY_TUPLE], memo)
      | _ =>
          let '(out, memo') := save_all items memo in
          let body :=
            match length items with
            | 1%nat => out ++ [TUPLE1]
            | 2%nat => out ++ [TUPLE2]
            | 3%nat => out ++ [TUPLE3]
            | _ => MARK :: out ++ [TUPLE]
            end in
          (body ++ put memo', memo' + 1)
      end
  end.

Definition dumps (obj : PyVal) : result bytes :=
  Ret (PROTO :: byte_of_Z 3 :: fst (save obj 0) ++ [STOP]).

(** *** Unpickler *)

Inductive slot : Type := Obj (v : PyVal) | MarkObject.

Record machine : Type := Machine {
  stack : list slot;
  memo : gmap Z PyVal;
}.

Inductive step_result : Type :=
  | Continue (rest : bytes) (m : machine)
  | Stop (value : PyVal).

(** Reading an operand of [n] bytes. *)
Definition read (n : nat) (input : bytes) : result (bytes * bytes) :=
  if bool_decide (n ≤ length input)%nat
  then Ret (take n input, drop n input)
  else Raise UnpicklingError.

Definition push (v : PyVal) (m : machine) : machine :=
  Machine (Obj v :: stack m) (memo m).

(** The objects above the topmost mark, oldest first, and the stack below. *)
Fixpoint pop_mark (st : list slot) (acc : list PyVal)
    : result (list PyVal * list slot) :=
  match st with
  | [] => Raise UnpicklingError
  | MarkObject :: st' => Ret (acc, st')
  | Obj v :: st' => pop_mark st' (v :: acc)
  end.

Definition memoize (idx : Z) (rest : bytes) (m : machine)
    : result step_result :=
  match stack m with
  | Obj v :: _ => Ret (Continue rest (Machine (stack m) (<[idx := v]> (memo m))))
  | _ => Raise UnpicklingError
  end.

Definition exec (op : byte) (input : bytes) (m : machine)
    : result step_result :=
  if Byte.eqb op PROTO then
    '(arg, rest) ← read 1 input;
    if le_unsigned arg <=? HIGHEST_PROTOCOL then Ret (Continue rest m)
    else Raise ValueError
  else if Byte.eqb op STOP then
    match stack m with
    | Obj v :: _ => Ret (Stop v)
    | _ => Raise UnpicklingError
    end
  else if Byte.eqb op NONE then Ret (Continue input (push PyNone m))
  else if Byte.eqb op NEWTRUE then Ret (Continue input (push (PyBool true) m))
  else if Byte.eqb op NEWFALSE then Ret (Continue input (push (PyBool false) m))
  else if Byte.eqb op BININT1 then
    '(arg, rest) ← read 1 input;
    Ret (Continue rest (push (PyInt (le_unsigned arg)) m))
  else if Byte.eqb op BININT2 then
    '(arg, rest) ← read 2 input;
    Ret (Continue rest (push (PyInt (le_unsigned arg)) m))
  else if Byte.eqb op BININT then
    '(arg, rest) ← read 4 input;
    Ret (Continue rest (push (PyInt (le_signed arg)) m))
  else if Byte.eqb op LONG1 then
    '(arg, rest) ← read 1 input;
    '(data, rest') ← read (Z.to_nat (le_unsigned arg)) rest;
    Ret (Continue rest' (push (PyInt (le_signed data)) m))
  else if Byte.eqb op LONG4 then
    '(arg, rest) ← read 4 input;
    if le_signed arg <? 0 then Raise UnpicklingError
    else
      '(data, rest') ← read (Z.to_nat (le_signed arg)) rest;
      Ret (Continue rest' (push (PyInt (le_signed data)) m))
  else if Byte.eqb op SHORT_BINBYTES then
    '(arg, rest) ← read 1 input;
    '(data, rest') ← read (Z.to_nat (le_unsigned arg)) rest;
    Ret (Continue rest' (push (PyBytes data) m))
  else if Byte.eqb op BINBYTES then
    '(arg, rest) ← read 4 input;
    '(data, rest') ← read (Z.to_nat (le_unsigned arg)) rest;
    Ret (Continue rest' (push (PyBytes data) m))
  else if Byte.eqb op EMPTY_TUPLE then
    Ret (Continue input (push (PyTuple []) m))
  else if Byte.eqb op TUPLE1 then
    match stack m with
    | Obj a :: st => Ret (Continue input (Machine (Obj (PyTuple [a]) :: st) (memo m)))
    | _ => Raise UnpicklingError
    end
  else if Byte.eqb op TUPLE2 then
    match stack m with
    | Obj b :: Obj a :: st =>
        Ret (Continue input (Machine (Obj (PyTuple [a; b]) :: st) (memo m)))
    | _ => Raise UnpicklingError
    end
  else if Byte.eqb op TUPLE3 then
    match stack m with
    | Obj c :: Obj b :: Obj a :: st =>
        Ret (Continue input (Machine (Obj (PyTuple [a; b; c]) :: st) (memo m)))
    | _ => Raise UnpicklingError
    end
  else if Byte.eqb op MARK then
    Ret (Continue input (Machine (MarkObject :: stack m) (memo m)))
  else if Byte.eqb op TUPLE then
    '(items, st) ← pop_mark (stack m) [];
    Ret (Continue input (Machine (Obj (PyTuple items) :: st) (memo m)))
  else if Byte.eqb op BINPUT then
    '(arg, rest) ← read 1 input;
    memoize (le_unsigned arg) rest m
  else if Byte.eqb op LONG_BINPUT then
    '(arg, rest) ← read 4 input;
    memoize (le_unsigned arg) rest m
  else Raise UnpicklingError.

(** The dispatch loop: one opcode a turn, until STOP. *)
Fixpoint load (fuel : nat) (input : bytes) (m : machine) : result PyVal :=
  match fuel, input with
  | S fuel', op :: rest =>
      match exec op rest m with
      | Ret (Continue rest' m') => load fuel' rest' m'
      | Ret (Stop value) => Ret value
      | Raise e => Raise e
      end
  | _, _ => Raise EOFError
  end.

(** Every turn reads at least the opcode, so the length of the input is
    fuel enough ([load_fuel] below). *)
Definition loads (data : bytes) : result PyVal :=
  load (length data) data (Machine [] ∅).

#[global] Instance tiny_pickle : Pickle :=
  {| pickle_dumps := dumps; pickle_loads := loads |}.

End TinyPickle.

(** ** The other client calls: EXISTS, KEYS, FLUSHDB, INCRBY and pipelines

    [has], [clear], [inc], [dec] and [set_many] use client methods beyond
    those above.  A method body of this second kind may issue a call of either
    kind. *)

(** What a pipeline holds in [set_many]: [pipe.set] and [pipe.setex] queue a
    command and send nothing. *)
Inductive queued : Type :=
  | QSet (name : string) (value : bytes)
  | QSetex (name : string) (value : bytes) (time : Z).

Inductive xcmd : Type :=
  | XExists (name : string)
  | XKeys (pattern : string)
  | XFlushdb
  | XIncr (name : string) (amount : Z)
  | XExecute (stack : list queued).

(** What redis-py hands back: a count, the names, a flag, the new number, and
    one answer for each queued command. *)
Definition xreply (c : xcmd) : Type :=
  match c with
  | XExists _ => Z
  | XKeys _ => list string
  | XFlushdb => bool
  | XIncr _ _ => Z
  | XExecute _ => list (option bool)
  end.

Inductive any_cmd : Type :=
  | Base (c : cmd)
  | Ext (c : xcmd).

Definition any_reply (c : any_cmd) : Type :=
  match c with
  | Base c => reply c
  | Ext c => xreply c
  end.

Inductive xprog (A : Type) : Type :=
  | XDone (a : A)
  | XThrow (e : exn)
  | XCall (c : any_cmd) (k : any_reply c → xprog A).
Arguments XDone {A} a.
Arguments XThrow {A} e.
Arguments XCall {A} c k.

Fixpoint xprog_bind {A B} (k : A → xprog B) (p : xprog A) : xprog B :=
  match p with
  | XDone a => k a
  | XThrow e => XThrow e
  | XCall c k' => XCall c (λ r, xprog_bind k (k' r))
  end.

#[global] Instance xprog_ret : MRet xprog := @XDone.
#[global] Instance xprog_mbind : MBind xprog := @xprog_bind.

Definition xcall (c : any_cmd) : xprog (any_reply c) := XCall c XDone.

Definition xlift {A} (r : result A) : xprog A :=
  match r with
  | Ret a => XDone a
  | Raise e => XThrow e
  end.

Definition client_exists (name : string) : xprog Z :=
  xcall (Ext (XExists name)).
Definition client_keys (pattern : string) : xprog (list string) :=
  xcall (Ext (XKeys pattern)).
Definition client_flushdb : xprog bool :=
  xcall (Ext XFlushdb).
Definition client_incr (name : string) (amount : Z) : xprog Z :=
  xcall (Ext (XIncr name amount)).
Definition pipe_execute (stack : list queued) : xprog (list (option bool)) :=
  xcall (Ext (XExecute stack)).
Definition client_delete_names (names : list string) : xprog Z :=
  xcall (Base (CDelete names)).

Class XClient (St : Type) : Type :=
  xclient_call : ∀ c : xcmd, St → result (xreply c) * St.

Definition any_call {St} `{!Client St} `{!XClient St} (c : any_cmd)
    : St → result (any_reply c) * St :=
  match c with
  | Base c => client_call c
  | Ext c => xclient_call c
  end.

Fixpoint xrun {St} `{!Client St} `{!XClient St} {A} (p : xprog A) (s : St)
    : result A * St * list any_cmd :=
  match p with
  | XDone a => (Ret a, s, [])
  | XThrow e => (Raise e, s, [])
  | XCall c k =>
      match any_call c s with
      | (Ret r, s') => let '(out, s'', t) := xrun (k r) s' in (out, s'', c :: t)
      | (Raise e, s') => (Raise e, s', [c])
      end
  end.

(** ** The other methods *)

Section MoreMethods.
Context `{Pickle}.
Variable self : RedisCache.

Definition delete (key : string) : prog Z :=
  client_delete [physical self key].

Definition has (key : string) : xprog Z :=
  client_exists (physical self key).

(** The loop of [set_many]: each value is encoded and its command is put on
    the pipeline, in the order of [mapping.items()]. *)
Fixpoint fill_pipe (timeout : Z) (items : list (string * PyVal))
    (pipe : list queued) : result (list queued) :=
  match items with
  | [] => Ret pipe
  | (key, value) :: items' =>
      dump ← dump_object value;
      fill_pipe timeout items'
        (pipe ++ [if timeout =? -1 then QSet (physical self key) dump
                  else QSetex (physical self key) dump timeout])
  end.

(** A [dict] is its items in insertion order; the keys of a [dict] are
    distinct. *)
Definition set_many (mapping : list (string * PyVal)) (timeout : option Z)
    : xprog (list (option bool)) :=
  let timeout := _normalize_timeout self timeout in
  pipe ← xlift (fill_pipe timeout mapping []);
  pipe_execute pipe.

(** [status] is an [int], or what [flushdb] answers. *)
Definition clear : xprog PyVal :=
  if nonempty (key_prefix self) then
    keys ← client_keys (key_prefix self +:+ "*");
    match keys with
    | [] => XDone (PyInt 0)
    | _ :: _ => status ← client_delete_names keys; XDone (PyInt status)
    end
  else
    status ← client_flushdb; XDone (PyBool status).

(** [delta] is [1] when the caller gives none. *)
Definition inc (key : string) (delta : Z) : xprog Z :=
  client_incr (physical self key) delta.

Definition dec (key : string) (delta : Z) : xprog Z :=
  client_incr (physical self key) (- delta).
End MoreMethods.

(** ** The reference store, for the other calls *)

Definition is_live (st : store) (name : string) : bool :=
  match live st name with Some _ => true | None => false end.

#[global] Instance byte_eq_decision : EqDecision byte := Byte.byte_eq_dec.

(** The server's integers are signed and 64 bits wide. *)
Definition int64 (n : Z) : bool :=
  (-9223372036854775808 <=? n) && (n <=? 9223372036854775807).

(** The server reads a value as a number only when it is the canonical
    decimal text of a 64-bit integer: no sign ["+"], no padding, no leading
    zeros. *)
Definition redis_int (s : bytes) : option Z :=
  match parse_int s with
  | Some n => if int64 n && bool_decide (str_int n = s) then Some n else None
  | None => None
  end.

(** INCRBY: a missing key counts as [0]; the deadline of the entry stays. *)
Definition incr_by (name : string) (amount : Z) (st : store)
    : result Z * store :=
  let old :=
    match live st name with
    | Some e => (redis_int (payload e), deadline e)
    | None => (Some 0, None)
    end in
  match old with
  | (Some n, d) =>
      if int64 amount && int64 (n + amount)
      then (Ret (n + amount), put st name (Entry (str_int (n + amount)) d))
      else (Raise ResponseError, st)
  | (None, _) => (Raise ResponseError, st)
  end.

Definition exec_queued (q : queued) (st : store)
    : result (option bool) * store :=
  match q with
  | QSet name value => client_call (CSet name value) st
  | QSetex name value time => client_call (CSetex name value time) st
  end.

(** A pipeline without a transaction: every command runs, in order, whatever
    the others answer. *)
Fixpoint exec_stack (stack : list queued) (st : store)
    : list (result (option bool)) * store :=
  match stack with
  | [] => ([], st)
  | q :: stack' =>
      let '(r, st1) := exec_queued q st in
      let '(rs, st2) := exec_stack stack' st1 in
      (r :: rs, st2)
  end.

(** KEYS: the names that are there and that the pattern matches.  [glob] is
    the server's matcher. *)
Definition matching_keys (glob : string → string → bool) (pattern : string)
    (st : store) : list string :=
  filter (λ name, is_live st name = true ∧ glob pattern name = true)
    (map_to_list (entries st)).*1.

(** After the answers are read, [execute] raises the first error among
    them. *)
Definition store_xclient (glob : string → string → bool) : XClient store :=
  λ c,
  match c as c' return store → result (xreply c') * store with
  | XExists name => λ st, (Ret (if is_live st name then 1 else 0), st)
  | XKeys pattern => λ st, (Ret (matching_keys glob pattern st), st)
  | XFlushdb => λ st, (Ret true, Store (now st) ∅)
  | XIncr name amount => incr_by name amount
  | XExecute stack => λ st,
      let '(rs, st') := exec_stack stack st in (mapM (λ r, r) rs, st')
  end.

(** A matcher for patterns of literal characters that may end in one star;
    it stands in for the server's where a concrete one is needed. *)
Fixpoint literal_glob (pattern name : string) : bool :=
  match pattern with
  | EmptyString => match name with EmptyString => true | _ => false end
  | String c pattern' =>
      match pattern' with
      | EmptyString =>
          if String.eqb (String c EmptyString) "*" then true
          else match name with
               | String d EmptyString => Ascii.eqb c d
               | _ => false
               end
      | _ =>
          match name with
          | String d name' => Ascii.eqb c d && literal_glob pattern' name'
          | EmptyString => false
          end
      end
  end.

(** Running a method body of the second kind on the reference store. *)
Definition store_xrun (glob : string → string → bool) {A} (p : xprog A)
    (st : store) : result A * store * list any_cmd :=
  @xrun store store_client (store_xclient glob) A p st.

(** The command [set_many] queues for a key and its encoded value. *)
Definition queued_for (self : RedisCache) (t : Z) (key : string)
    (dump : bytes) : queued :=
  if t =? -1 then QSet (physical self key) dump
  else QSetex (physical self key) dump t.

(** The store after [set] on each item in turn. *)
Definition set_each `{Pickle} (self : RedisCache) (timeout : option Z)
    (items : list (string * PyVal)) (st : store) : store :=
  foldl (λ st item, (run (set self item.1 item.2 timeout) st).1.2) st items.

(** How deep the tuples of an object nest. *)
Fixpoint nesting (v : PyVal) : nat :=
  match v with
  | PyTuple items =>
      let fix deepest (l : list PyVal) : nat :=
        match l with
        | [] => O
        | x :: l' => Nat.max (nesting x) (deepest l')
        end in
      S (deepest items)
  | _ => O
  end.

(** The pickler recurses into nested objects, and beyond the interpreter's
    recursion limit it raises [RecursionError], a [RuntimeError].  This is the
    implementation above with such a limit on the nesting. *)
Definition limited_pickle (limit : nat) : Pickle :=
  {| pickle_dumps v :=
       if bool_decide (nesting v ≤ limit)%nat then TinyPickle.dumps v
       else Raise RuntimeError;
     pickle_loads := TinyPickle.loads |}.

(** A stand-in for the class of redis-py, for examples: it knows a few
    keywords, raises [TypeError] on any other and keeps its arguments. *)
Definition known_keywords : list string :=
  ["decode_responses"; "socket_timeout"; "ssl"; "username"]%string.

Definition redis_py : redis_class := λ host port password db kwargs,
  if forallb (λ item, bool_decide (item.1 ∈ known_keywords))
       (map_to_list kwargs)
  then Ret (Redis host port password db kwargs)
  else Raise TypeError.

(** * Properties *)

(** ** Integers as text *)

Lemma scan_digits_uint d acc :
  scan_digits AfterDigit acc (uint_bytes d) = Some (uint_value acc d, []).
Proof.
  revert acc. induction d; intros acc; simpl; try done; apply IHd.
Qed.

Lemma uint_value_pos d (p : positive) :
  uint_value (Z.pos p) d = Z.pos (Pos.of_uint_acc d p).
Proof.
  revert p. induction d; intros p; simpl; try done.
  all: rewrite <- IHd; f_equal; lia.
Qed.

Lemma uint_value_zero d : uint_value 0 d = Z.of_N (Pos.of_uint d).
Proof.
  induction d; simpl; try done.
  all: apply (uint_value_pos d).
Qed.

Lemma scan_digits_digit st acc c s d :
  digit_val c = Some d →
  scan_digits st acc (c :: s) = scan_digits AfterDigit (10 * acc + d) s.
Proof. intros Hc. cbn [scan_digits]. by rewrite Hc. Qed.

Lemma parse_int_uint d :
  d ≠ Decimal.Nil → parse_int (uint_bytes d) = Some (Z.of_N (Pos.of_uint d)).
Proof.
  intros Hd. rewrite <- uint_value_zero.
  destruct d; try done.
  all: unfold parse_int; cbn [uint_bytes skip_space is_space]; simpl read_sign;
    cbv beta iota zeta.
  all: erewrite scan_digits_digit by reflexivity.
  all: rewrite scan_digits_uint; simpl skip_space; cbv iota beta.
  all: f_equal; cbn [uint_value]; destruct (uint_value _ d); done.
Qed.

Lemma parse_int_neg_uint d :
  d ≠ Decimal.Nil →
  parse_int ("-"%byte :: uint_bytes d) = Some (- Z.of_N (Pos.of_uint d)).
Proof.
  intros Hd. rewrite <- uint_value_zero.
  destruct d; try done.
  all: unfold parse_int; cbn [uint_bytes skip_space is_space]; simpl read_sign;
    cbv beta iota zeta.
  all: erewrite scan_digits_digit by reflexivity.
  all: rewrite scan_digits_uint; simpl skip_space; cbv iota beta.
  all: f_equal; cbn [uint_value]; destruct (uint_value _ d); done.
Qed.

(** The scanner reads the numeral of [n] back as [n]. *)
Lemma parse_int_str_int n : parse_int (str_int n) = Some n.
Proof.
  destruct n as [|p|p].
  - done.
  - change (str_int (Z.pos p)) with (uint_bytes (Pos.to_uint p)).
    rewrite parse_int_uint by apply Unsigned.to_uint_nonnil.
    by rewrite Unsigned.of_to.
  - change (str_int (Z.neg p)) with ("-"%byte :: uint_bytes (Pos.to_uint p)).
    rewrite parse_int_neg_uint by apply Unsigned.to_uint_nonnil.
    by rewrite Unsigned.of_to.
Qed.

Lemma uint_bytes_digits d : forallb is_digit (uint_bytes d) = true.
Proof. induction d; simpl; done. Qed.

Lemma all_digits_uint d : d ≠ Decimal.Nil → all_digits (uint_bytes d) = true.
Proof.
  intros Hd. unfold all_digits. rewrite uint_bytes_digits.
  destruct d; done.
Qed.

Lemma plain_decimal_uint d :
  d ≠ Decimal.Nil → plain_decimal (uint_bytes d) = true.
Proof.
  intros Hd. pose proof (all_digits_uint d Hd) as Ha.
  destruct d; done.
Qed.

(** The text of an integer is of the first wire shape, *)
Lemma plain_decimal_str_int n : plain_decimal (str_int n) = true.
Proof.
  destruct n as [|p|p].
  - done.
  - apply (plain_decimal_uint (Pos.to_uint p)), Unsigned.to_uint_nonnil.
  - apply (all_digits_uint (Pos.to_uint p)), Unsigned.to_uint_nonnil.
Qed.

(** and a text of the first wire shape never starts with the tag. *)
Lemma plain_decimal_not_tagged s :
  plain_decimal s = true → startswith_tag s = false.
Proof.
  destruct s as [|c s]; [done|]. simpl.
  destruct (Byte.eqb c tag) eqn:Hc; [|done].
  apply byte_dec_bl in Hc as ->. done.
Qed.

(** ** The digit limit

    A numeral of [len] digits without a leading zero denotes a number from
    [10 ^ (len - 1)] up to, and not including, [10 ^ len]; so the limit on the
    digits of [str(n)] is a bound on the absolute value of [n]. *)

Lemma digit_count_uint d :
  digit_count (uint_bytes d) = length (uint_bytes d).
Proof. induction d; simpl; congruence. Qed.

Lemma uint_value_bounds d :
  ∀ acc, 0 ≤ acc →
    let len := Z.of_nat (digit_count (uint_bytes d)) in
    acc * 10 ^ len ≤ uint_value acc d < (acc + 1) * 10 ^ len.
Proof.
  induction d as [|d IH|d IH|d IH|d IH|d IH|d IH|d IH|d IH|d IH|d IH];
    intros acc Hacc; cbn zeta.
  { simpl. lia. }
  all: cbn [uint_bytes digit_count uint_value].
  all: change (if is_digit _ then 1 else 0)%nat with 1%nat.
  all: rewrite Nat2Z.inj_add, Z.pow_add_r by lia.
  all: change (10 ^ Z.of_nat 1) with 10.
  all: match goal with
       | |- _ ≤ uint_value ?a _ < _ =>
           specialize (IH a ltac:(lia)); cbn zeta in IH
       end.
  all: pose proof (Z.pow_pos_nonneg 10
                     (Z.of_nat (digit_count (uint_bytes d)))
                     ltac:(lia) ltac:(lia)) as Hpow.
  all: revert IH Hpow;
    generalize (10 ^ Z.of_nat (digit_count (uint_bytes d)));
    intros P IH HP; nia.
Qed.

(** The numeral of a positive number has no leading zero. *)
Lemma to_uint_leading p :
  match Pos.to_uint p with
  | Decimal.Nil | Decimal.D0 _ => False
  | _ => True
  end.
Proof.
  pose proof (Unsigned.to_of (Pos.to_uint p)) as Hnorm.
  rewrite Unsigned.of_to in Hnorm. change (N.to_uint (N.pos p))
    with (Pos.to_uint p) in Hnorm.
  pose proof (Unsigned.to_uint_nonzero p) as Hnz.
  assert (Hhead : Decimal.nzhead (Pos.to_uint p) ≠ Decimal.Nil).
  { intros Hnil. apply DecimalFacts.unorm_0 in Hnil. congruence. }
  apply DecimalFacts.unorm_nzhead in Hhead.
  rewrite <- Hnorm in Hhead.
  pose proof (DecimalFacts.nzhead_nonzero (Pos.to_uint p)) as Hd0.
  pose proof (Unsigned.to_uint_nonnil p) as Hnil.
  destruct (Pos.to_uint p) eqn:Hp; try done.
  by apply (Hd0 u).
Qed.

Lemma pos_digits_bounds p :
  let len := Z.of_nat (digit_count (uint_bytes (Pos.to_uint p))) in
  10 ^ (len - 1) ≤ Z.pos p < 10 ^ len.
Proof.
  cbn zeta.
  assert (Hval : uint_value 0 (Pos.to_uint p) = Z.pos p).
  { by rewrite uint_value_zero, Unsigned.of_to. }
  pose proof (to_uint_leading p) as Hlead.
  pose proof (uint_value_bounds (Pos.to_uint p) 0 ltac:(lia)) as Hup.
  cbn zeta in Hup. rewrite Hval in Hup.
  split; [|lia].
  rewrite <- Hval.
  destruct (Pos.to_uint p) as [|d|d|d|d|d|d|d|d|d|d]; try done.
  all: cbn [uint_bytes digit_count uint_value].
  all: change (if is_digit _ then 1 else 0)%nat with 1%nat.
  all: replace (Z.of_nat (1 + digit_count (uint_bytes d)) - 1)
         with (Z.of_nat (digit_count (uint_bytes d))) by lia.
  all: match goal with
       | |- _ ≤ uint_value ?a _ =>
           pose proof (uint_value_bounds d a ltac:(lia)) as Hlow
       end.
  all: cbn zeta in Hlow.
  all: pose proof (Z.pow_pos_nonneg 10
                     (Z.of_nat (digit_count (uint_bytes d)))
                     ltac:(lia) ltac:(lia)) as Hpow.
  all: revert Hlow Hpow;
    generalize (10 ^ Z.of_nat (digit_count (uint_bytes d)));
    intros P Hlow HP; nia.
Qed.

(** [str(n)] is within the limit exactly when [n] is less than
    [10 ^ int_max_str_digits] in absolute value. *)
Lemma str_int_in_limit n :
  over_digit_limit (digit_count (str_int n)) = false
  ↔ Z.abs n < 10 ^ int_max_str_digits.
Proof.
  unfold over_digit_limit.
  change (0 <? int_max_str_digits) with true. cbn [andb].
  rewrite Z.ltb_ge.
  assert (Hlimit : 1 ≤ int_max_str_digits) by done.
  pose proof (Z.pow_pos_nonneg 10 int_max_str_digits ltac:(lia) ltac:(lia))
    as Hpos.
  destruct n as [|p|p].
  - change (Z.of_nat (digit_count (str_int 0))) with 1. simpl Z.abs. lia.
  - change (str_int (Z.pos p)) with (uint_bytes (Pos.to_uint p)).
    pose proof (pos_digits_bounds p) as [Hlow Hup]. cbn zeta in Hlow, Hup.
    simpl Z.abs. split.
    + intros Hlen. eapply Z.lt_le_trans; [exact Hup|].
      apply Z.pow_le_mono_r; lia.
    + intros Hn.
      assert (Hlt : 10 ^ (Z.of_nat (digit_count (uint_bytes (Pos.to_uint p)))
                          - 1) < 10 ^ int_max_str_digits)
        by (eapply Z.le_lt_trans; [exact Hlow | exact Hn]).
      apply Z.pow_lt_mono_r_iff in Hlt; lia.
  - change (digit_count (str_int (Z.neg p)))
      with (digit_count (uint_bytes (Pos.to_uint p))).
    pose proof (pos_digits_bounds p) as [Hlow Hup]. cbn zeta in Hlow, Hup.
    change (Z.abs (Z.neg p)) with (Z.pos p). split.
    + intros Hlen. eapply Z.lt_le_trans; [exact Hup|].
      apply Z.pow_le_mono_r; lia.
    + intros Hn.
      assert (Hlt : 10 ^ (Z.of_nat (digit_count (uint_bytes (Pos.to_uint p)))
                          - 1) < 10 ^ int_max_str_digits)
        by (eapply Z.le_lt_trans; [exact Hlow | exact Hn]).
      apply Z.pow_lt_mono_r_iff in Hlt; lia.
Qed.

Lemma str_encode_ascii_in_limit n :
  Z.abs n < 10 ^ int_max_str_digits → str_encode_ascii n = Ret (str_int n).
Proof.
  intros Hn%str_int_in_limit. unfold str_encode_ascii. cbn zeta.
  by rewrite Hn.
Qed.

Lemma str_encode_ascii_over_limit n :
  10 ^ int_max_str_digits ≤ Z.abs n → str_encode_ascii n = Raise ValueError.
Proof.
  intros Hn. unfold str_encode_ascii. cbn zeta.
  destruct (over_digit_limit (digit_count (str_int n))) eqn:Hover; [done|].
  apply str_int_in_limit in Hover. lia.
Qed.


(** [int(str(n).encode("ascii")) == n], within the limit. *)
Lemma int_of_bytes_str_int n :
  Z.abs n < 10 ^ int_max_str_digits → int_of_bytes (str_int n) = Ret n.
Proof.
  intros Hn%str_int_in_limit. unfold int_of_bytes.
  by rewrite parse_int_str_int, Hn.
Qed.

(** A 64-bit integer has at most 19 digits, far below the limit. *)
Lemma int64_in_limit n :
  int64 n = true → Z.abs n < 10 ^ int_max_str_digits.
Proof.
  unfold int64. intros [Hlow Hup]%andb_true_iff.
  apply Z.leb_le in Hlow, Hup.
  assert (H19 : 10 ^ 19 ≤ 10 ^ int_max_str_digits)
    by (apply Z.pow_le_mono_r; done).
  eapply Z.lt_le_trans; [|exact H19].
  change (10 ^ 19) with 10000000000000000000. lia.
Qed.

Lemma in_digit_limit_int64 n : int64 n = true → in_digit_limit (PyInt n).
Proof. apply int64_in_limit. Qed.

(** ** The scanner of [int()] against its grammar *)

Lemma space_not_digit c :
  is_space c = true → digit_val c = None ∧ is_underscore c = false.
Proof. destruct c; (discriminate || (intros _; split; reflexivity)). Qed.

Lemma digit_not_special c :
  is_digit c = true →
  is_space c = false ∧ Byte.eqb c "-"%byte = false ∧ Byte.eqb c "+"%byte = false.
Proof. destruct c; (discriminate || (intros _; repeat split; reflexivity)). Qed.

Lemma is_digit_val c : is_digit c = true → ∃ d, digit_val c = Some d.
Proof. unfold is_digit. destruct (digit_val c); [eauto | done]. Qed.

Lemma skip_space_split s :
  ∃ ws, s = ws ++ skip_space s ∧ forallb is_space ws = true.
Proof.
  induction s as [|c s [ws [Hs Hws]]]; [by exists []|].
  simpl. destruct (is_space c) eqn:Hc.
  - exists (c :: ws). simpl. rewrite Hc, Hws. by rewrite <- Hs.
  - by exists [].
Qed.

Lemma skip_space_all s : skip_space s = [] ↔ forallb is_space s = true.
Proof.
  induction s as [|c s IH]; [done|].
  simpl. destruct (is_space c); [apply IH | done].
Qed.

Lemma skip_space_app ws s :
  forallb is_space ws = true → skip_space (ws ++ s) = skip_space s.
Proof.
  induction ws as [|c ws IH]; [done|]. simpl.
  destruct (is_space c); [apply IH | done].
Qed.

Lemma read_sign_split s k s1 :
  read_sign s = (k, s1) → ∃ sg, s = sg ++ s1 ∧ sign_prefix sg k.
Proof.
  destruct s as [|c s]; simpl.
  - intros [= <- <-]. exists []. split; [done | constructor].
  - destruct (Byte.eqb c "-"%byte) eqn:Hm.
    { apply byte_dec_bl in Hm as ->. intros [= <- <-].
      exists ["-"%byte]. split; [done | constructor]. }
    destruct (Byte.eqb c "+"%byte) eqn:Hp.
    { apply byte_dec_bl in Hp as ->. intros [= <- <-].
      exists ["+"%byte]. split; [done | constructor]. }
    intros [= <- <-]. exists []. split; [done | constructor].
Qed.

(** What [scan_digits] has read when it succeeds, state by state. *)
Lemma scan_digits_sound s :
  ∀ acc n rest,
    (scan_digits AfterDigit acc s = Some (n, rest) →
     ∃ body, s = body ++ rest ∧ digits_tail body ∧ n = digits_value acc body) ∧
    (∀ st, st ≠ AfterDigit → scan_digits st acc s = Some (n, rest) →
     ∃ c body, s = c :: body ++ rest ∧ is_digit c = true ∧ digits_tail body ∧
               n = digits_value acc (c :: body)).
Proof.
  induction s as [|c s IH]; intros acc n rest.
  { split.
    - intros [= <- <-]. exists []. split; [done|]. split; [constructor | done].
    - intros [] Hst; done. }
  destruct (digit_val c) as [d|] eqn:Hd.
  - assert (Hc : is_digit c = true) by (unfold is_digit; by rewrite Hd).
    split; [|intros st _]; rewrite (scan_digits_digit _ _ _ _ _ Hd);
      intros Hscan; apply (IH (10 * acc + d)) in Hscan
        as (body & -> & Hbody & ->).
    + exists (c :: body). split; [done|]. split; [by constructor|].
      unfold digits_value. simpl. by rewrite Hd.
    + exists c, body. split; [done|]. split; [done|]. split; [done|].
      unfold digits_value. simpl. by rewrite Hd.
  - cbn [scan_digits]. rewrite Hd.
    destruct (is_underscore c) eqn:Hu.
    + apply byte_dec_bl in Hu as ->. split.
      * intros Hscan. apply (IH acc n rest) in Hscan
          as (c' & body & -> & Hc' & Hbody & ->); [|done].
        exists ("_"%byte :: c' :: body). split; [done|].
        split; [by constructor | done].
      * intros [] Hst; done.
    + split.
      * intros [= <- <-]. exists []. split; [done|]. split; [constructor | done].
      * intros [] Hst; done.
Qed.

Lemma scan_digits_complete body rest :
  digits_tail body → stops_scan rest →
  ∀ acc, scan_digits AfterDigit acc (body ++ rest)
         = Some (digits_value acc body, rest).
Proof.
  intros Hbody Hrest. induction Hbody as [|c s Hc _ IH|c s Hc _ IH]; intros acc.
  - destruct rest as [|c rest]; [done|]. destruct Hrest as [Hd Hu].
    simpl. by rewrite Hd, Hu.
  - apply is_digit_val in Hc as [d Hd]. simpl app.
    rewrite (scan_digits_digit _ _ _ _ _ Hd), IH.
    unfold digits_value. simpl. by rewrite Hd.
  - apply is_digit_val in Hc as [d Hd].
    change (("_"%byte :: c :: s) ++ rest) with ("_"%byte :: c :: (s ++ rest)).
    change (scan_digits AfterDigit acc ("_"%byte :: c :: (s ++ rest)))
      with (scan_digits AfterUnderscore acc (c :: (s ++ rest))).
    rewrite (scan_digits_digit _ _ _ _ _ Hd), IH.
    unfold digits_value. simpl. by rewrite Hd.
Qed.

Lemma spaces_stop_scan ws : forallb is_space ws = true → stops_scan ws.
Proof.
  destruct ws as [|c ws]; [done|]. simpl.
  intros [Hc _]%andb_true_iff. by apply space_not_digit.
Qed.

(** The scanner accepts exactly the literals of the grammar, with their
    value. *)
Lemma parse_int_literal s n : parse_int s = Some n ↔ int_literal s n.
Proof.
  split.
  - unfold parse_int. intros Hparse.
    destruct (skip_space_split s) as (ws1 & Hs & Hws1).
    destruct (read_sign (skip_space s)) as [k s1] eqn:Hsign.
    apply read_sign_split in Hsign as (sg & Hsg & Hk).
    destruct (scan_digits AtStart 0 s1) as [[m rest]|] eqn:Hscan; [|done].
    apply (scan_digits_sound s1 0 m rest) in Hscan
      as (c & body & -> & Hc & Hbody & ->); [|done].
    destruct (skip_space rest) eqn:Hrest; [|done].
    injection Hparse as <-.
    apply skip_space_all in Hrest.
    apply (IntLiteral _ _ ws1 sg k (c :: body) rest); try done.
    by rewrite Hs at 1; rewrite Hsg.
  - intros [ws1 sg k body ws2 -> Hws1 Hws2 Hk [c tl Hc Htl] ->].
    unfold parse_int. rewrite skip_space_app by done.
    destruct (digit_not_special c Hc) as (Hsp & Hm & Hp).
    assert (Hsign : read_sign (skip_space (sg ++ (c :: tl) ++ ws2))
                    = (k, (c :: tl) ++ ws2)).
    { destruct Hk; simpl; rewrite ?Hsp; simpl; by rewrite ?Hm, ?Hp. }
    rewrite Hsign. apply is_digit_val in Hc as [d Hd]. simpl app.
    rewrite (scan_digits_digit _ _ _ _ _ Hd).
    rewrite scan_digits_complete by (done || by apply spaces_stop_scan).
    apply skip_space_all in Hws2 as ->.
    unfold digits_value. simpl. by rewrite Hd.
Qed.

(** ** The codec *)

Section CodecFacts.
Context `{Pickle}.

Lemma dump_object_int n :
  Z.abs n < 10 ^ int_max_str_digits → dump_object (PyInt n) = Ret (str_int n).
Proof. apply str_encode_ascii_in_limit. Qed.

Lemma dump_object_int_over_limit n :
  10 ^ int_max_str_digits ≤ Z.abs n → dump_object (PyInt n) = Raise ValueError.
Proof. apply str_encode_ascii_over_limit. Qed.

Lemma dump_object_other value :
  type_is_int value = false →
  dump_object value = (d ← pickle_dumps value; Ret (tag :: d)).
Proof. by destruct value. Qed.

Lemma load_object_tagged d :
  load_object (Some (tag :: d))
  = try_except (pickle_loads d) is_PickleError (Ret PyNone).
Proof. done. Qed.

Lemma load_object_untagged s :
  startswith_tag s = false →
  load_object (Some s)
  = match parse_int s with
    | Some n =>
        if over_digit_limit (digit_count s) then Ret (PyBytes s)
        else Ret (PyInt n)
    | None => Ret (PyBytes s)
    end.
Proof.
  intros Hs. unfold load_object, int_of_bytes. rewrite Hs.
  destruct (parse_int s); [|done].
  by destruct (over_digit_limit (digit_count s)).
Qed.

Lemma load_object_str_int n :
  Z.abs n < 10 ^ int_max_str_digits →
  load_object (Some (str_int n)) = Ret (PyInt n).
Proof.
  intros Hn%str_int_in_limit.
  rewrite load_object_untagged, parse_int_str_int, Hn; [done|].
  apply plain_decimal_not_tagged, plain_decimal_str_int.
Qed.

(** When decoding raises: only on a tagged payload on which [pickle.loads]
    raises something that is not a [PickleError]. *)
Lemma load_object_raises value e :
  load_object value = Raise e ↔
  ∃ s, value = Some s ∧ startswith_tag s = true ∧
       pickle_loads (drop 1 s) = Raise e ∧ is_PickleError e = false.
Proof.
  split.
  - destruct value as [s|]; [|done]. unfold load_object.
    destruct (startswith_tag s) eqn:Hs.
    + unfold try_except. destruct (pickle_loads (drop 1 s)) as [v|e'] eqn:Hl;
        [done|]. destruct (is_PickleError e') eqn:He; [done|].
      intros [= <-]. by exists s.
    + unfold int_of_bytes. destruct (parse_int s); [|done].
      by destruct (over_digit_limit (digit_count s)).
  - intros (s & -> & Hs & Hl & He). unfold load_object, try_except.
    by rewrite Hs, Hl, He.
Qed.

(** The values the round trip is about are encoded, and decoding the payload
    gives them back. *)
Lemma dump_object_returns value :
  type_is_int value = true ∨ pickle_supports value →
  in_digit_limit value →
  ∃ d, dump_object value = Ret d.
Proof.
  destruct (type_is_int value) eqn:Hty.
  - intros _ Hn. destruct value as [| | n | |]; try done.
    exists (str_int n). by apply dump_object_int.
  - intros [? | (d & Hd & _)] _; [done|].
    exists (tag :: d). by rewrite dump_object_other, Hd.
Qed.

Lemma load_object_dump value d :
  type_is_int value = true ∨ pickle_supports value →
  dump_object value = Ret d → load_object (Some d) = Ret value.
Proof.
  destruct (type_is_int value) eqn:Hty.
  - intros _. destruct value as [| | n | |]; try done.
    unfold dump_object, str_encode_ascii. cbn zeta.
    destruct (over_digit_limit (digit_count (str_int n))) eqn:Hover; [done|].
    intros [= <-]. by apply load_object_str_int, str_int_in_limit.
  - intros [? | (d' & Hd & Hl)]; [done|].
    rewrite dump_object_other, Hd by done. intros [= <-].
    by rewrite load_object_tagged, Hl.
Qed.

End CodecFacts.

(** C1 as stated fails on an integer of more digits than the interpreter
    converts: the type of [10 ^ 4300] is exactly [int], yet [str] raises
    [ValueError] on it and [dump_object] with it, so there is no payload to
    decode. *)
Lemma codec_round_trip_counterexample :
  let v := PyInt (10 ^ int_max_str_digits) in
  type_is_int v = true ∧
  dump_object v = Raise ValueError ∧
  (∀ d, dump_object v = Ret d → False).
Proof.
  assert (Hraise : dump_object (PyInt (10 ^ int_max_str_digits))
                   = Raise ValueError).
  { apply dump_object_int_over_limit.
    pose proof (Z.pow_pos_nonneg 10 int_max_str_digits) as Hpos. lia. }
  cbn zeta. split; [reflexivity|]. split; [exact Hraise|].
  intros d Hd. congruence.
Qed.

(** C1, amended.  Codec round trip: for a value whose type is exactly [int],
    and for a value the pickle serializer supports, provided that an [int] is
    one of at most [int_max_str_digits] decimal digits, [dump_object] returns
    a payload and [load_object] of that payload returns the value. *)
Theorem codec_round_trip `{Pickle} (v : PyVal) :
  type_is_int v = true ∨ pickle_supports v →
  in_digit_limit v →
  ∃ d, dump_object v = Ret d ∧ load_object (Some d) = Ret v.
Proof.
  intros Hv Hlimit. destruct (dump_object_returns v Hv Hlimit) as [d Hd].
  exists d. split; [done | by apply load_object_dump].
Qed.

Lemma codec_round_trip_witness :
  let v := PyTuple [PyInt (-42); PyBool true; PyBytes (lit "x")] in
  let n := PyInt (-42) in
  (type_is_int v = true ∨ pickle_supports v) ∧ in_digit_limit v ∧
  (∃ d, dump_object v = Ret d ∧ load_object (Some d) = Ret v) ∧
  (type_is_int n = true ∨ pickle_supports n) ∧ in_digit_limit n ∧
  (∃ d, dump_object n = Ret d ∧ load_object (Some d) = Ret n).
Proof.
  assert (Hv : pickle_supports
                 (PyTuple [PyInt (-42); PyBool true; PyBytes (lit "x")])).
  { eexists. split; vm_compute; reflexivity. }
  assert (Hn : in_digit_limit (PyInt (-42)))
    by (apply in_digit_limit_int64; reflexivity).
  split; [by right|]. split; [exact I|]. split.
  { apply (codec_round_trip
             (PyTuple [PyInt (-42); PyBool true; PyBytes (lit "x")]));
      [by right | exact I]. }
  split; [by left|]. split; [exact Hn|].
  apply (codec_round_trip (PyInt (-42))); [by left | exact Hn].
Defined.

(** C2, at the failing input: a tagged payload cut off after the tag makes
    [pickle.loads] raise [EOFError], which is no [PickleError] and so is not
    caught; the same holds for a payload of an unknown protocol
    ([ValueError]).  A truncated operand raises [UnpicklingError] and is
    turned into [None]. *)
Theorem load_object_uncaught :
  load_object (Some (lit "!")) = Raise EOFError ∧
  load_object
    (Some (tag :: TinyPickle.PROTO :: TinyPickle.byte_of_Z 9 :: lit "N."))
  = Raise ValueError ∧
  load_object (Some (lit "!K")) = Ret PyNone.
Proof. repeat split. Qed.



(** C7 as stated fails in both directions.  A payload with a plus sign (or
    padded, or underscored digits) is not of the first wire shape, yet it is
    decoded to an integer and not handed back as bytes; and a payload of 4301
    digits is of the first wire shape, yet [int] refuses it and it is handed
    back as bytes. *)
Lemma legacy_decode_counterexample :
  let nines := replicate 4301 "9"%byte in
  startswith_tag (lit "+5") = false ∧
  plain_decimal (lit "+5") = false ∧
  load_object (Some (lit "+5")) = Ret (PyInt 5) ∧
  load_object (Some (lit " 42 ")) = Ret (PyInt 42) ∧
  load_object (Some (lit "1_000")) = Ret (PyInt 1000) ∧
  load_object (Some (lit "+5")) ≠ Ret (PyBytes (lit "+5")) ∧
  startswith_tag nines = false ∧
  plain_decimal nines = true ∧
  load_object (Some nines) = Ret (PyBytes nines).
Proof.
  cbn zeta. do 5 (split; [reflexivity|]). split; [discriminate|].
  repeat split; vm_compute; reflexivity.
Qed.

Lemma digits_tail_all s : forallb is_digit s = true → digits_tail s.
Proof.
  induction s as [|c s IH]; [constructor|]. simpl.
  intros [Hc Hs]%andb_true_iff. constructor; auto.
Qed.

Lemma digit_groups_all s : all_digits s = true → digit_groups s.
Proof.
  unfold all_digits. destruct s as [|c s]; [done|]. simpl.
  intros [Hc Hs]%andb_true_iff. constructor; [done | by apply digits_tail_all].
Qed.

(** A text of the first wire shape is a literal of the number it spells. *)
Lemma plain_decimal_literal s :
  plain_decimal s = true → int_literal s (plain_value s).
Proof.
  destruct s as [|c s]; [done|]. unfold plain_decimal, plain_value.
  destruct (Byte.eqb c "-"%byte) eqn:Hc.
  - apply byte_dec_bl in Hc as ->. intros Hs%digit_groups_all.
    apply (IntLiteral _ _ [] ["-"%byte] (-1) s []);
      first [done | by rewrite app_nil_r | constructor | lia].
  - intros Hs%digit_groups_all.
    apply (IntLiteral _ _ [] [] 1 (c :: s) []);
      first [done | by rewrite app_nil_r | constructor | lia].
Qed.

Lemma over_digit_limit_spec (digits : nat) :
  (over_digit_limit digits = false ↔ Z.of_nat digits ≤ int_max_str_digits) ∧
  (over_digit_limit digits = true ↔ int_max_str_digits < Z.of_nat digits).
Proof.
  unfold over_digit_limit. change (0 <? int_max_str_digits) with true.
  cbn [andb]. rewrite Z.ltb_ge, Z.ltb_lt. done.
Qed.

(** C7, amended.  For a payload that does not start with the tag,
    [load_object] returns the integer [n] exactly when the payload is a
    literal of [n] in the grammar of [int()] (white space, an optional sign
    ["+"] or ["-"], digits with single underscores between them, white space)
    and has at most [int_max_str_digits] digits.  Every text of at most that
    many digits with an optional leading ["-"] is such a literal and decodes
    to the number it spells; a payload that is no literal, or has more
    digits, is returned unchanged as bytes. *)
Theorem legacy_decode `{Pickle} (s : bytes) :
  startswith_tag s = false →
  (∀ n, load_object (Some s) = Ret (PyInt n)
        ↔ int_literal s n ∧ Z.of_nat (digit_count s) ≤ int_max_str_digits) ∧
  (plain_decimal s = true → Z.of_nat (digit_count s) ≤ int_max_str_digits →
   load_object (Some s) = Ret (PyInt (plain_value s))) ∧
  ((∀ n, ¬ int_literal s n) ∨ int_max_str_digits < Z.of_nat (digit_count s) →
   load_object (Some s) = Ret (PyBytes s)).
Proof.
  intros Hs. rewrite load_object_untagged by done.
  destruct (over_digit_limit_spec (digit_count s)) as [Hin Hover].
  split; [|split].
  - intros n. rewrite <- parse_int_literal, <- Hin.
    destruct (parse_int s) as [m|]; [|by split; [|intros []]].
    destruct (over_digit_limit (digit_count s)).
    + split; [done | by intros []].
    + split; [by intros [= ->] | by intros [[= ->] _]].
  - intros Hp%plain_decimal_literal%parse_int_literal Hlen%Hin.
    by rewrite Hp, Hlen.
  - intros [Hno | Hlen%Hover].
    + destruct (parse_int s) as [m|] eqn:Hm; [|done].
      by apply parse_int_literal, Hno in Hm.
    + rewrite Hlen. by destruct (parse_int s).
Qed.

Lemma legacy_decode_witness :
  startswith_tag (lit "-007") = false ∧
  (∀ n, load_object (Some (lit "-007")) = Ret (PyInt n)
        ↔ int_literal (lit "-007") n
          ∧ Z.of_nat (digit_count (lit "-007")) ≤ int_max_str_digits) ∧
  (plain_decimal (lit "-007") = true →
   Z.of_nat (digit_count (lit "-007")) ≤ int_max_str_digits →
   load_object (Some (lit "-007")) = Ret (PyInt (plain_value (lit "-007")))) ∧
  ((∀ n, ¬ int_literal (lit "-007") n)
   ∨ int_max_str_digits < Z.of_nat (digit_count (lit "-007")) →
   load_object (Some (lit "-007")) = Ret (PyBytes (lit "-007"))).
Proof.
  split; [reflexivity|]. apply (legacy_decode (lit "-007")). reflexivity.
Defined.

(** ** Timeouts *)

(** The code has no guard on negative numbers, which callers are not to
    pass: every value other than [0] comes back unchanged, the sentinel
    itself included. *)
Lemma normalize_timeout_unguarded (self : RedisCache) (timeout : option Z) :
  BaseCache_normalize_timeout self timeout ≠ 0 →
  _normalize_timeout self timeout = BaseCache_normalize_timeout self timeout.
Proof. unfold _normalize_timeout. intros Hr. by apply Z.eqb_neq in Hr as ->. Qed.

(** C3.  Timeout normalization, on the timeouts of the data model (a default
    that is not negative; an argument that is unspecified, [0] or positive):
    [_normalize_timeout] substitutes [default_timeout] for an unspecified
    timeout, returns the sentinel [-1] exactly when the value so obtained is
    [0], and returns a positive [N] unchanged.  The result depends on nothing
    but the argument and [default_timeout]. *)
Theorem normalize_timeout_spec (self : RedisCache) (timeout : option Z) :
  0 ≤ default_timeout self →
  (∀ t, timeout = Some t → 0 ≤ t) →
  let r := BaseCache_normalize_timeout self timeout in
  (timeout = None → r = default_timeout self) ∧
  _normalize_timeout self None
    = _normalize_timeout self (Some (default_timeout self)) ∧
  (_normalize_timeout self timeout = -1 ↔ r = 0) ∧
  (0 < r → _normalize_timeout self timeout = r) ∧
  _normalize_timeout self (Some 0) = -1 ∧
  (∀ N, 0 < N → _normalize_timeout self (Some N) = N) ∧
  (∀ other, default_timeout other = default_timeout self →
            _normalize_timeout other timeout = _normalize_timeout self timeout).
Proof.
  intros Hdefault Hsupported r.
  assert (Hr : 0 ≤ r).
  { subst r. destruct timeout as [t|]; simpl; [by apply Hsupported | done]. }
  unfold _normalize_timeout. fold r. repeat split.
  - by intros ->.
  - destruct (Z.eqb_spec r 0); lia.
  - by intros ->.
  - intros Hpos. destruct (Z.eqb_spec r 0); lia.
  - intros N HN. simpl. destruct (Z.eqb_spec N 0); lia.
  - intros other Hdt. subst r. destruct timeout; simpl; by rewrite ?Hdt.
Qed.

Lemma normalize_timeout_spec_witness :
  let self := Build_RedisCache 0 None "" in
  let other := Build_RedisCache 300 None "" in
  (_normalize_timeout self None = -1
   ↔ BaseCache_normalize_timeout self None = 0) ∧
  (_normalize_timeout other None = -1
   ↔ BaseCache_normalize_timeout other None = 0) ∧
  (0 < BaseCache_normalize_timeout other (Some 60) →
   _normalize_timeout other (Some 60) = 60).
Proof.
  intros self other.
  assert (Hnone : ∀ t : Z, None = Some t → 0 ≤ t) by (intros t; discriminate).
  assert (Hsome : ∀ t : Z, Some 60 = Some t → 0 ≤ t)
    by (intros t [= <-]; lia).
  split; [|split].
  - apply (normalize_timeout_spec self None); [simpl; lia | exact Hnone].
  - apply (normalize_timeout_spec other None); [simpl; lia | exact Hnone].
  - apply (normalize_timeout_spec other (Some 60)); [simpl; lia | exact Hsome].
Defined.

(** ** Running method bodies *)

Section RunFacts.
Context {St : Type} `{!Client St}.

Lemma run_call (c : cmd) (s : St) :
  run (call c) s = (let '(r, s') := client_call c s in (r, s', [c])).
Proof.
  unfold call. cbn [run]. by destruct (client_call c s) as [[r|e] s'].
Qed.

Lemma run_lift {A} (r : result A) (s : St) : run (lift r) s = (r, s, []).
Proof. by destruct r. Qed.

(** A call followed by a pure step. *)
Lemma run_call_then {A} (c : cmd) (k : reply c → result A) (s : St) :
  run (Call c (λ r, lift (k r))) s
  = match client_call c s with
    | (Ret r, s') => (k r, s', [c])
    | (Raise e, s') => (Raise e, s', [c])
    end.
Proof.
  cbn [run]. destruct (client_call c s) as [[r|e] s']; [|done].
  by rewrite run_lift.
Qed.

End RunFacts.

Lemma prefixed_keys_map (self : RedisCache) (keys : list string) :
  prefixed_keys self keys = (λ key, key_prefix self +:+ key) <$> keys.
Proof.
  unfold prefixed_keys, nonempty. case_bool_decide as Hp; [|done].
  by rewrite Hp.
Qed.

Lemma mapM_result_Forall2 {A B} (f : A → result B) (l : list A) (vs : list B) :
  mapM f l = Ret vs ↔ Forall2 (λ x v, f x = Ret v) l vs.
Proof.
  revert vs. induction l as [|x l IH]; intros vs; simpl.
  - split; [by intros [= <-] | by inversion 1].
  - destruct (f x) as [v|e] eqn:Hx; simpl.
    + destruct (mapM f l) as [vs'|e] eqn:Hl; simpl.
      * split.
        -- intros [= <-]. constructor; [done | by apply IH].
        -- inversion 1 as [|? v' ? vs'' Hv Hvs]; subst.
           apply IH in Hvs. rewrite Hx in Hv.
           injection Hv as <-. by injection Hvs as <-.
      * split; [done|]. inversion 1 as [|? v' ? vs'' Hv Hvs]; subst.
        by apply IH in Hvs.
    + split; [done|]. inversion 1; congruence.
Qed.

Lemma mapM_result_returns {A B} (f : A → result B) (l : list A) :
  Forall (λ x, returns (f x)) l → ∃ vs, mapM f l = Ret vs.
Proof.
  induction 1 as [|x l [v Hv] _ [vs Hvs]]; [by exists []|].
  exists (v :: vs). simpl. by rewrite Hv, Hvs.
Qed.

(** ** The reference store *)

Lemma live_put (st : store) (name : string) (value : bytes) :
  live (put st name (Entry value None)) name = Some (Entry value None).
Proof. unfold live, put. simpl. by rewrite lookup_insert_eq. Qed.

(** An entry without a deadline outlives any wait. *)
Lemma live_advance_no_deadline (st : store) (name : string) (value : bytes) dt :
  live st name = Some (Entry value None) →
  live (advance dt st) name = Some (Entry value None).
Proof.
  unfold live, advance. simpl.
  destruct (entries st !! name) as [e|]; [|done].
  destruct (expired st e) eqn:He; [done|]. by intros [= ->].
Qed.

Lemma delete_all_missing (names : list string) (st : store) :
  Forall (λ name, live st name = None) names → delete_all names st = (0, st).
Proof.
  induction 1 as [|name names Hname _ IH]; [done|].
  simpl. by rewrite Hname.
Qed.

(** ** Methods *)

(** C4.  [set] normalizes the timeout and encodes the value, then issues
    exactly one call: a plain SET when the normalized timeout is the sentinel
    [-1], a SETEX with the normalized seconds otherwise; it returns what the
    client answers.  On the reference store the entry written by the plain SET
    has no deadline: after any wait, [get] decodes the payload written. *)
Theorem set_dispatch `{Pickle} {St : Type} `{!Client St} (self : RedisCache)
    (key : string) (value : PyVal) (timeout : option Z) (dump : bytes) (s : St) :
  dump_object value = Ret dump →
  let t := _normalize_timeout self timeout in
  let name := key_prefix self +:+ key in
  (t = -1 →
   run (set self key value timeout) s
   = (let '(ack, s') := client_call (CSet name dump) s in
      (ack, s', [CSet name dump]))) ∧
  (t ≠ -1 →
   run (set self key value timeout) s
   = (let '(ack, s') := client_call (CSetex name dump t) s in
      (ack, s', [CSetex name dump t]))) ∧
  (t = -1 → ∀ (st : store) (dt : Z),
   let st' := (run (set self key value timeout) st).1.2 in
   run (get self key) (advance dt st')
   = (load_object (Some dump), advance dt st', [CGet name])).
Proof.
  intros Hdump t name.
  assert (Hset : ∀ St' (C : Client St') (s0 : St'),
            run (set self key value timeout) s0
            = run (if t =? -1 then client_set name dump
                   else client_setex name dump t) s0).
  { intros. unfold set. by rewrite Hdump. }
  split; [|split].
  - intros Ht%Z.eqb_eq. rewrite Hset, Ht. apply (run_call (CSet name dump)).
  - intros Ht%Z.eqb_neq. rewrite Hset, Ht.
    apply (run_call (CSetex name dump t)).
  - intros Ht%Z.eqb_eq st dt st'. subst st'. rewrite Hset, Ht.
    unfold get, client_get, physical. fold name.
    change (run (client_set name dump) st).1.2
      with (put st name (Entry dump None)).
    unfold call. cbn [mbind prog_mbind prog_bind]. rewrite run_call_then.
    cbn [client_call store_client].
    by rewrite (live_advance_no_deadline _ _ dump) by apply live_put.
Qed.

Lemma set_dispatch_witness :
  let self := Build_RedisCache 300 None "p:" in
  let value := PyTuple [PyInt 1; PyBool true] in
  let dump :=
    tag :: TinyPickle.PROTO :: TinyPickle.byte_of_Z 3
    :: TinyPickle.BININT1 :: TinyPickle.byte_of_Z 1
    :: TinyPickle.NEWTRUE :: TinyPickle.TUPLE2
    :: TinyPickle.BINPUT :: TinyPickle.byte_of_Z 0 :: [TinyPickle.STOP] in
  dump_object value = Ret dump ∧
  run (set self "b" value (Some 0)) (Store 0 ∅)
  = (Ret (Some true), Store 0 {[ "p:b"%string := Entry dump None ]},
     [CSet "p:b" dump]) ∧
  run (get self "b") (advance 1000000 (Store 0 {[ "p:b"%string := Entry dump None ]}))
  = (Ret value, advance 1000000 (Store 0 {[ "p:b"%string := Entry dump None ]}),
     [CGet "p:b"]).
Proof.
  intros self value dump.
  assert (Hdump : dump_object value = Ret dump) by reflexivity.
  destruct (set_dispatch self "b" value (Some 0) dump (Store 0 ∅) Hdump)
    as (Hplain & _ & Hkeep).
  split; [exact Hdump|]. split.
  - rewrite Hplain by reflexivity. reflexivity.
  - specialize (Hkeep eq_refl (Store 0 ∅) 1000000).
    rewrite Hplain in Hkeep by reflexivity. exact Hkeep.
Defined.

(** C5.  [add] issues one SETNX and, only when that answers true, one EXPIRE
    with the normalized timeout; it returns true only when both answer true.
    On the reference store, [add] on a key that is present returns false,
    issues no EXPIRE and leaves the store, value and deadline, as it was. *)
Theorem add_semantics `{Pickle} {St : Type} `{!Client St} (self : RedisCache)
    (key : string) (value : PyVal) (timeout : option Z) (dump : bytes) (s : St) :
  dump_object value = Ret dump →
  let t := _normalize_timeout self timeout in
  let name := key_prefix self +:+ key in
  run (add self key value timeout) s
  = match client_call (CSetnx name dump) s with
    | (Ret true, s1) =>
        let '(ok, s2) := client_call (CExpire name t) s1 in
        (ok, s2, [CSetnx name dump; CExpire name t])
    | (Ret false, s1) => (Ret false, s1, [CSetnx name dump])
    | (Raise e, s1) => (Raise e, s1, [CSetnx name dump])
    end ∧
  (∀ s' calls,
     run (add self key value timeout) s = (Ret true, s', calls) →
     ∃ s1, client_call (CSetnx name dump) s = (Ret true, s1) ∧
           client_call (CExpire name t) s1 = (Ret true, s')) ∧
  (∀ (st : store) (e : entry),
     live st name = Some e →
     run (add self key value timeout) st = (Ret false, st, [CSetnx name dump])).
Proof.
  intros Hdump t name.
  assert (Hadd : ∀ St' (C : Client St') (s0 : St'),
            run (add self key value timeout) s0
            = match client_call (CSetnx name dump) s0 with
              | (Ret true, s1) =>
                  let '(ok, s2) := client_call (CExpire name t) s1 in
                  (ok, s2, [CSetnx name dump; CExpire name t])
              | (Ret false, s1) => (Ret false, s1, [CSetnx name dump])
              | (Raise e, s1) => (Raise e, s1, [CSetnx name dump])
              end).
  { intros St' C s0. unfold add. rewrite Hdump.
    unfold client_setnx, client_expire, call, physical. fold t name.
    cbn [lift mbind prog_mbind prog_bind run].
    destruct (client_call (CSetnx name dump) s0) as [[[]|e] s1]; try done.
    cbn [run]. by destruct (client_call (CExpire name t) s1) as [[ok|e] s2]. }
  split; [apply Hadd | split].
  - intros s' calls. rewrite Hadd.
    destruct (client_call (CSetnx name dump) s) as [[[]|e] s1]; try done.
    destruct (client_call (CExpire name t) s1) as [[ok|e] s2] eqn:Hexp;
      [|done].
    intros [= -> -> <-]. by exists s1.
  - intros st e He. rewrite Hadd. cbn [client_call store_client].
    by rewrite He.
Qed.

Lemma add_semantics_witness :
  let self := Build_RedisCache 300 None "p:" in
  let st := Store 7 {[ "p:k"%string := Entry (lit "41") (Some 60) ]} in
  dump_object (PyInt 42) = Ret (lit "42") ∧
  run (add self "k" (PyInt 42) None) st = (Ret false, st, [CSetnx "p:k" (lit "42")]) ∧
  run (add self "k" (PyInt 42) None) (Store 7 ∅)
  = (Ret true, Store 7 {[ "p:k"%string := Entry (lit "42") (Some 307) ]},
     [CSetnx "p:k" (lit "42"); CExpire "p:k" 300]).
Proof.
  intros self st.
  assert (Hdump : dump_object (PyInt 42) = Ret (lit "42")) by reflexivity.
  split; [exact Hdump|]. split.
  - destruct (add_semantics self "k" (PyInt 42) None (lit "42") st Hdump)
      as (_ & _ & Hpresent).
    apply (Hpresent st (Entry (lit "41") (Some 60))). reflexivity.
  - destruct (add_semantics self "k" (PyInt 42) None (lit "42") (Store 7 ∅) Hdump)
      as (Hrun & _ & _).
    rewrite Hrun. reflexivity.
Defined.

(** [get_many] prefixes every key and issues exactly one MGET, on the
    prefixed keys in the order given.  When the client answers with one reply
    for each key and each reply decodes, [get_many] returns a list as long as
    the list of keys, whose [i]-th element is the decoded [i]-th reply: [None]
    wherever the client reported the key missing. *)
Lemma get_many_shape `{Pickle} {St : Type} `{!Client St} (self : RedisCache)
    (keys : list string) (s s' : St) (replies : list (option bytes)) :
  let names := (λ key, key_prefix self +:+ key) <$> keys in
  client_call (CMGet names) s = (Ret replies, s') →
  length replies = length keys →
  Forall (λ x, returns (load_object x)) replies →
  ∃ values,
    run (get_many self keys) s = (Ret values, s', [CMGet names]) ∧
    length values = length keys ∧
    Forall2 (λ x v, load_object x = Ret v) replies values ∧
    (∀ i, replies !! i = Some None → values !! i = Some PyNone).
Proof.
  intros names Hmget Hlen Hdec.
  destruct (mapM_result_returns _ _ Hdec) as [values Hvalues].
  pose proof (proj1 (mapM_result_Forall2 _ _ _) Hvalues) as Hall.
  exists values. split; [|split; [|split]].
  - unfold get_many, client_mget, call. rewrite prefixed_keys_map. fold names.
    cbn [mbind prog_mbind prog_bind]. rewrite run_call_then, Hmget.
    by rewrite Hvalues.
  - by rewrite <- (Forall2_length _ _ _ Hall).
  - done.
  - intros i Hi.
    destruct (Forall2_lookup_l _ _ _ _ _ Hall Hi) as (v & Hv & Hload).
    rewrite Hv. simpl in Hload. by injection Hload as <-.
Qed.

Lemma get_many_shape_witness :
  let self := Build_RedisCache 300 None "p:" in
  let st := Store 0 {[ "p:a"%string := Entry (lit "42") None;
                       "p:c"%string := Entry (lit "old") None ]} in
  ∃ values,
    run (get_many self ["a"; "b"; "c"]%string) st
    = (Ret values, st, [CMGet ["p:a"; "p:b"; "p:c"]%string]) ∧
    length values = 3%nat ∧
    Forall2 (λ x v, load_object x = Ret v)
      [Some (lit "42"); None; Some (lit "old")] values ∧
    (∀ i, [Some (lit "42"); None; Some (lit "old")] !! i = Some None →
          values !! i = Some PyNone).
Proof.
  intros self st.
  apply (get_many_shape self ["a"; "b"; "c"]%string st st
           [Some (lit "42"); None; Some (lit "old")]).
  - reflexivity.
  - reflexivity.
  - repeat constructor; eexists; reflexivity.
Defined.

(** C6, at the failing input: one of the requested keys holds a tagged
    payload cut off after the tag.  [load_object] raises [EOFError] on its
    reply (the uncaught exception of C2), the list comprehension is
    abandoned, and [get_many] raises: it returns no sequence at all, although
    the two other keys, one present and one missing, decode. *)
Theorem get_many_uncaught :
  let self := Build_RedisCache 300 None "p:" in
  let st := Store 0 {[ "p:a"%string := Entry (lit "7") None;
                       "p:k"%string := Entry (lit "!") None ]} in
  load_object (Some (lit "7")) = Ret (PyInt 7) ∧
  load_object None = Ret PyNone ∧
  load_object (Some (lit "!")) = Raise EOFError ∧
  run (get_many self ["a"; "k"; "b"]%string) st
  = (Raise EOFError, st, [CMGet ["p:a"; "p:k"; "p:b"]%string]).
Proof. repeat split. Qed.

(** C8.  [delete_many] without keys returns [None] and calls nothing.  With
    keys it issues exactly one DEL on the prefixed keys and returns the count
    the client answers; on the reference store that count is [0] when every
    key is missing, and [None] is not [0]. *)
Theorem delete_many_signal {St : Type} `{!Client St} (self : RedisCache)
    (keys : list string) (s : St) :
  let names := (λ key, key_prefix self +:+ key) <$> keys in
  run (delete_many self []) s = (Ret None, s, []) ∧
  (keys ≠ [] →
   run (delete_many self keys) s
   = match client_call (CDelete names) s with
     | (Ret n, s') => (Ret (Some n), s', [CDelete names])
     | (Raise e, s') => (Raise e, s', [CDelete names])
     end) ∧
  (keys ≠ [] → ∀ st : store,
   Forall (λ key, live st (key_prefix self +:+ key) = None) keys →
   run (delete_many self keys) st = (Ret (Some 0), st, [CDelete names])) ∧
  @Ret (option Z) None ≠ Ret (Some 0).
Proof.
  intros names.
  assert (Hrun : ∀ St' (C : Client St') (s0 : St'), keys ≠ [] →
            run (delete_many self keys) s0
            = match client_call (CDelete names) s0 with
              | (Ret n, s') => (Ret (Some n), s', [CDelete names])
              | (Raise e, s') => (Raise e, s', [CDelete names])
              end).
  { intros St' C s0 Hkeys. unfold delete_many.
    destruct keys as [|key keys']; [done|].
    rewrite prefixed_keys_map. fold names.
    unfold client_delete, call. cbn [mbind prog_mbind prog_bind run].
    by destruct (client_call (CDelete names) s0) as [[n|e] s1]. }
  split; [done|]. split; [by apply Hrun|]. split; [|done].
  intros Hkeys st Hmissing. rewrite Hrun by done.
  cbn [client_call store_client]. rewrite delete_all_missing; [done|].
  subst names. by rewrite Forall_fmap.
Qed.

(** ** Construction *)

(** C9 as stated fails for a host that is a client object: the
    [decode_responses] option is not looked at and construction returns.
    And with a string host and no such option, construction still fails: when
    the redis module cannot be imported, and when the client class refuses
    its arguments. *)
Lemma init_counterexample :
  wants_decode_responses {[ "decode_responses"%string := PyBool true ]} = true ∧
  returns (__init__ (Some redis_py) (HostObj (Redis "cache" 6379 None 0 ∅))
             6379 None 0 300 None
             {[ "decode_responses"%string := PyBool true ]}) ∧
  __init__ None (HostStr "localhost") 6379 None 0 300 None ∅
  = Raise RuntimeError ∧
  wants_decode_responses {[ "bogus"%string := PyInt 1 ]} = false ∧
  __init__ (Some redis_py) (HostStr "localhost") 6379 None 0 300 None
    {[ "bogus"%string := PyInt 1 ]}
  = Raise TypeError.
Proof.
  split; [reflexivity|]. split; [by eexists|]. repeat split.
Qed.

(** C9, amended.  A [None] host fails construction with [ValueError].  For a
    string host construction fails at once with [RuntimeError] when the redis
    module cannot be imported and with [ValueError] when the options ask for
    [decode_responses]; otherwise it calls the client class with the
    arguments, fails at once with what that call raises, and when the call
    returns it returns a cache that holds the client.  For a host that is an
    object the options are not examined and construction returns. *)
Theorem init_fail_fast (redis : redis_module) (host : host_arg) (port : Z)
    (password : option string) (db : Z) (default_timeout : Z)
    (key_prefix : option string) (kwargs : gmap string PyVal) :
  let made :=
    __init__ redis host port password db default_timeout key_prefix kwargs in
  (host = HostNone → made = Raise ValueError) ∧
  (∀ address, host = HostStr address →
     (redis = None → made = Raise RuntimeError) ∧
     (∀ redis_Redis, redis = Some redis_Redis →
        (wants_decode_responses kwargs = true → made = Raise ValueError) ∧
        (wants_decode_responses kwargs = false →
           (∀ e, redis_Redis address port password db kwargs = Raise e →
                 made = Raise e) ∧
           (∀ client, redis_Redis address port password db kwargs = Ret client →
                 made = Ret (Build_RedisCache default_timeout (Some client)
                               (or_empty key_prefix)))))) ∧
  (∀ client, host = HostObj client → returns made).
Proof.
  intros made. subst made. split; [by intros ->|]. split.
  - intros address ->. unfold __init__. split; [by intros ->|].
    intros redis_Redis ->. split; [by intros ->|].
    intros ->. split.
    + by intros e ->.
    + by intros client ->.
  - intros client ->. by eexists.
Qed.

(** ** The unpickling machine always has fuel enough *)

Lemma read_length n input arg rest :
  TinyPickle.read n input = Ret (arg, rest) → (length rest ≤ length input)%nat.
Proof.
  unfold TinyPickle.read. case_bool_decide; [|done].
  intros [= <- <-]. rewrite length_drop. lia.
Qed.

Lemma exec_length op input m rest m' :
  TinyPickle.exec op input m = Ret (TinyPickle.Continue rest m') →
  (length rest ≤ length input)%nat.
Proof.
  unfold TinyPickle.exec, TinyPickle.memoize, mbind, result_bind.
  intros Hexec.
  repeat match type of Hexec with
  | context [if ?b then _ else _] => destruct b
  | context [match TinyPickle.read ?n ?i with _ => _ end] =>
      let Hr := fresh "Hr" in
      destruct (TinyPickle.read n i) as [[??]|] eqn:Hr;
      [apply read_length in Hr|]
  | context [match ?x with _ => _ end] => destruct x
  end; try discriminate; injection Hexec as <- <-; lia.
Qed.

Lemma load_fuel fuel1 fuel2 input m :
  (length input ≤ fuel1)%nat → (length input ≤ fuel2)%nat →
  TinyPickle.load fuel1 input m = TinyPickle.load fuel2 input m.
Proof.
  revert fuel2 input m.
  induction fuel1 as [|fuel1 IH]; intros fuel2 input m H1 H2.
  - destruct input; [|simpl in H1; lia]. by destruct fuel2.
  - destruct input as [|op rest]; [by destruct fuel2|].
    destruct fuel2 as [|fuel2]; [simpl in H2; lia|]. simpl in *.
    destruct (TinyPickle.exec op rest m) as [[rest' m'|v]|e] eqn:Hexec; try done.
    apply exec_length in Hexec. apply IH; lia.
Qed.

(** [get] hands on what [load_object] raises: a stored payload that is the
    tag alone makes it raise [EOFError]. *)
Lemma get_propagates_decode_error :
  run (get (Build_RedisCache 300 None "p:") "k")
      (Store 0 {[ "p:k"%string := Entry (lit "!") None ]})
  = (Raise EOFError, Store 0 {[ "p:k"%string := Entry (lit "!") None ]},
     [CGet "p:k"]).
Proof. reflexivity. Qed.

(** ** Further facts *)

(** A value that cannot be encoded reaches no store call. *)
Lemma set_encoding_error `{Pickle} {St : Type} `{!Client St} (self : RedisCache)
    (key : string) (value : PyVal) (timeout : option Z) (e : exn) (s : St) :
  dump_object value = Raise e →
  run (set self key value timeout) s = (Raise e, s, []).
Proof. intros Hdump. unfold set. by rewrite Hdump. Qed.

(** What [set] stores without expiry, [get] returns after any wait, on the
    reference store: the end-to-end reading of the round trip. *)
Lemma set_then_get `{Pickle} (self : RedisCache) (key : string)
    (value : PyVal) (timeout : option Z) (st : store) (dt : Z) :
  type_is_int value = true ∨ pickle_supports value →
  in_digit_limit value →
  _normalize_timeout self timeout = -1 →
  ∃ st' calls,
    run (set self key value timeout) st = (Ret (Some true), st', calls) ∧
    (run (get self key) (advance dt st')).1.1 = Ret value.
Proof.
  intros Hv Hlimit Ht.
  destruct (dump_object_returns value Hv Hlimit) as [dump Hdump].
  exists (put st (key_prefix self +:+ key) (Entry dump None)),
    [CSet (key_prefix self +:+ key) dump].
  split.
  - unfold set. by rewrite Hdump, Ht.
  - unfold get, client_get, physical, call.
    cbn [mbind prog_mbind prog_bind]. rewrite run_call_then.
    cbn [client_call store_client].
    rewrite (live_advance_no_deadline _ _ dump) by apply live_put.
    by apply load_object_dump.
Qed.

(** The pickle implementation above supports [None] and the booleans. *)
Lemma tiny_pickle_supports_flat :
  pickle_supports PyNone ∧ ∀ b, pickle_supports (PyBool b).
Proof.
  split; [|intros []]; eexists; split; reflexivity.
Qed.

(** [add] with a timeout of [0] passes the sentinel [-1] to EXPIRE.  On the
    reference store a deadline that is not in the future removes the key: the
    call answers true and the entry just written is gone. *)
Lemma add_sentinel_expire `{Pickle} (self : RedisCache) (key : string)
    (value : PyVal) (dump : bytes) (st : store) :
  dump_object value = Ret dump →
  live st (key_prefix self +:+ key) = None →
  ∃ st',
    run (add self key value (Some 0)) st
    = (Ret true, st',
       [CSetnx (key_prefix self +:+ key) dump;
        CExpire (key_prefix self +:+ key) (-1)]) ∧
    live st' (key_prefix self +:+ key) = None.
Proof.
  intros Hdump Hfree. eexists. split.
  - unfold add. rewrite Hdump.
    unfold client_setnx, client_expire, call, physical.
    cbn [lift mbind prog_mbind prog_bind run client_call store_client].
    rewrite Hfree. cbn [run client_call store_client].
    rewrite live_put. reflexivity.
  - unfold live, remove. simpl. by rewrite lookup_delete_eq.
Qed.

(** * The other methods *)

(** ** Store and key facts *)

Lemma append_inj_prefix (p s1 s2 : string) : p +:+ s1 = p +:+ s2 → s1 = s2.
Proof. induction p as [|c p IH]; simpl; [done|]. intros [= Heq]. auto. Qed.

Lemma physical_inj (self : RedisCache) (k1 k2 : string) :
  physical self k1 = physical self k2 → k1 = k2.
Proof. apply append_inj_prefix. Qed.

Lemma live_put_eq (st : store) (name : string) (e : entry) :
  live (put st name e) name = if expired st e then None else Some e.
Proof. unfold live, put. simpl. by rewrite lookup_insert_eq. Qed.

Lemma live_put_ne (st : store) (name name' : string) (e : entry) :
  name ≠ name' → live (put st name e) name' = live st name'.
Proof. intros Hne. unfold live, put. simpl. by rewrite lookup_insert_ne. Qed.

Lemma live_remove_eq (st : store) (name : string) :
  live (remove st name) name = None.
Proof. unfold live, remove. simpl. by rewrite lookup_delete_eq. Qed.

Lemma live_remove_ne (st : store) (name name' : string) :
  name ≠ name' → live (remove st name) name' = live st name'.
Proof. intros Hne. unfold live, remove. simpl. by rewrite lookup_delete_ne. Qed.

Lemma put_live_id (st : store) (name : string) (e : entry) :
  live st name = Some e → put st name e = st.
Proof.
  unfold live, put. destruct st as [t m]. simpl.
  destruct (m !! name) as [e'|] eqn:Hm; [|done].
  destruct (expired _ e'); [done|]. intros [= ->]. by rewrite insert_id.
Qed.

(** What [get] does on the reference store. *)
Lemma run_get_store `{Pickle} (self : RedisCache) (key : string) (st : store) :
  run (get self key) st
  = (load_object (payload <$> live st (physical self key)), st,
     [CGet (physical self key)]).
Proof.
  unfold get, client_get, call. cbn [mbind prog_mbind prog_bind].
  by rewrite run_call_then.
Qed.

(** What [set] does on the reference store, once the value is encoded. *)
Lemma run_set_store `{Pickle} (self : RedisCache) (key : string)
    (value : PyVal) (timeout : option Z) (dump : bytes) (st : store) :
  dump_object value = Ret dump →
  let t := _normalize_timeout self timeout in
  let name := physical self key in
  run (set self key value timeout) st
  = if t =? -1 then
      (Ret (Some true), put st name (Entry dump None), [CSet name dump])
    else if t <=? 0 then (Raise ResponseError, st, [CSetex name dump t])
    else (Ret (Some true), put st name (Entry dump (Some (now st + t))),
          [CSetex name dump t]).
Proof.
  intros Hdump t name. unfold set. rewrite Hdump. fold t name.
  cbn [lift mbind prog_mbind prog_bind].
  destruct (t =? -1); [done|].
  unfold client_setex, call. cbn [run client_call store_client].
  by destruct (t <=? 0).
Qed.

Lemma expired_advance (st : store) (value : bytes) (d : option Z) (dt : Z) :
  expired (advance dt st) (Entry value d)
  = match d with Some d => d <=? now st + dt | None => false end.
Proof. done. Qed.

Lemma live_advance_put (st : store) (name : string) (e : entry) (dt : Z) :
  live (advance dt (put st name e)) name
  = if expired (advance dt st) e then None else Some e.
Proof. unfold live, advance, put. simpl. by rewrite lookup_insert_eq. Qed.

(** ** [set] and [get] *)

(** X1.  On the reference store, after a [set] whose timeout normalizes to
    [-1] or to a positive number of seconds [t], [get] returns the value while
    less than [t] seconds have passed (always, for [-1]) and [None] from then
    on, whatever the key held before. *)
Theorem set_get_expiry `{Pickle} (self : RedisCache) (key : string)
    (value : PyVal) (timeout : option Z) (st : store) (dt : Z) :
  type_is_int value = true ∨ pickle_supports value →
  in_digit_limit value →
  _normalize_timeout self timeout = -1 ∨ 0 < _normalize_timeout self timeout →
  0 ≤ dt →
  let t := _normalize_timeout self timeout in
  let st' := (run (set self key value timeout) st).1.2 in
  (run (set self key value timeout) st).1.1 = Ret (Some true) ∧
  (run (get self key) (advance dt st')).1.1
  = if (t =? -1) || (dt <? t) then Ret value else Ret PyNone.
Proof.
  intros Hv Hlimit Ht Hdt t st'. subst st'.
  destruct (dump_object_returns value Hv Hlimit) as [dump Hdump].
  rewrite (run_set_store self key value timeout dump st Hdump). fold t.
  rewrite run_get_store.
  destruct (Z.eqb_spec t (-1)) as [Hm|Hm]; cbn [fst snd orb].
  - split; [done|]. rewrite live_advance_put. simpl.
    by apply load_object_dump.
  - assert (0 < t) as Hpos by (subst t; lia).
    destruct (Z.leb_spec t 0); [lia|]. cbn [fst snd]. split; [done|].
    rewrite live_advance_put, expired_advance.
    destruct (Z.ltb_spec dt t), (Z.leb_spec (now st + t) (now st + dt));
      try lia; simpl; [by apply load_object_dump | done].
Qed.

Lemma set_get_expiry_witness :
  let self := Build_RedisCache 300 None "p:" in
  let st := Store 100 {[ "p:k"%string := Entry (lit "old") (Some 101) ]} in
  let st' := (run (set self "k" (PyBool true) None) st).1.2 in
  (run (get self "k") (advance 299 st')).1.1 = Ret (PyBool true) ∧
  (run (get self "k") (advance 300 st')).1.1 = Ret PyNone.
Proof.
  intros self st st'.
  assert (Hv : type_is_int (PyBool true) = true ∨ pickle_supports (PyBool true)).
  { right. eexists. split; reflexivity. }
  split.
  - apply (set_get_expiry self "k" (PyBool true) None st 299 Hv I);
      [by right | done].
  - apply (set_get_expiry self "k" (PyBool true) None st 300 Hv I);
      [by right | done].
Defined.

(** X2.  On the reference store a [set] on one key never changes what [get]
    returns for another key, whether the [set] succeeds or raises. *)
Theorem set_other_key_unchanged `{Pickle} (self : RedisCache) (key key' : string)
    (value : PyVal) (timeout : option Z) (st : store) :
  key ≠ key' →
  (run (get self key') (run (set self key value timeout) st).1.2).1.1
  = (run (get self key') st).1.1.
Proof.
  intros Hne. rewrite !run_get_store. cbn [fst].
  destruct (dump_object value) as [dump|e] eqn:Hdump.
  - rewrite (run_set_store self key value timeout dump st Hdump).
    assert (physical self key ≠ physical self key') as Hphys
      by (by intros ?%physical_inj).
    repeat case_match; cbn [fst snd]; by rewrite ?live_put_ne.
  - by rewrite (set_encoding_error self key value timeout e st Hdump).
Qed.

Lemma set_other_key_unchanged_witness :
  let self := Build_RedisCache 300 None "p:" in
  let st := Store 0 {[ "p:a"%string := Entry (lit "7") None ]} in
  (run (get self "a") (run (set self "b" (PyInt 1) None) st).1.2).1.1
  = (run (get self "a") st).1.1.
Proof.
  intros self st.
  apply (set_other_key_unchanged self "b" "a" (PyInt 1) None st). done.
Defined.

(** X3.  A timeout that normalizes to a negative number other than [-1] makes
    [set] issue a SETEX with that number; the reference store refuses it:
    [set] raises [ResponseError] and nothing is written. *)
Theorem set_negative_timeout `{Pickle} (self : RedisCache) (key : string)
    (value : PyVal) (timeout : option Z) (dump : bytes) (st : store) :
  dump_object value = Ret dump →
  _normalize_timeout self timeout < -1 →
  run (set self key value timeout) st
  = (Raise ResponseError, st,
     [CSetex (key_prefix self +:+ key) dump (_normalize_timeout self timeout)]).
Proof.
  intros Hdump Ht. rewrite (run_set_store self key value timeout dump st Hdump).
  destruct (Z.eqb_spec (_normalize_timeout self timeout) (-1)); [lia|].
  by destruct (Z.leb_spec (_normalize_timeout self timeout) 0); [|lia].
Qed.

Lemma set_negative_timeout_witness :
  run (set (Build_RedisCache 300 None "p:") "k" (PyInt 5) (Some (-5))) (Store 0 ∅)
  = (Raise ResponseError, Store 0 ∅, [CSetex "p:k" (lit "5") (-5)]).
Proof.
  apply (set_negative_timeout (Build_RedisCache 300 None "p:") "k" (PyInt 5)
           (Some (-5)) (lit "5") (Store 0 ∅)); [reflexivity | done].
Defined.

(** ** [delete], [delete_many], [has], [get_many] *)

Lemma run_delete_store (self : RedisCache) (key : string) (st : store) :
  run (delete self key) st
  = (match live st (physical self key) with
     | Some _ => (Ret 1, remove st (physical self key))
     | None => (Ret 0, st)
     end, [CDelete [physical self key]]).
Proof.
  unfold delete, client_delete.
  rewrite (run_call (CDelete [physical self key])).
  cbn [client_call store_client delete_all].
  by destruct (live st (physical self key)).
Qed.

(** After DEL, the names listed are gone and the others are as before. *)
Lemma live_delete_all (names : list string) (st : store) (name : string) :
  (name ∈ names → live (delete_all names st).2 name = None) ∧
  (name ∉ names → live (delete_all names st).2 name = live st name).
Proof.
  revert st. induction names as [|n names IH]; intros st.
  { split; [by intros ?%elem_of_nil | done]. }
  cbn [delete_all].
  destruct (live st n) as [e|] eqn:Hn.
  - destruct (delete_all names (remove st n)) as [c st'] eqn:Hrec.
    cbn [snd]. change st' with (c, st').2. rewrite <- Hrec.
    destruct (IH (remove st n)) as [Hin Hout].
    destruct (decide (name ∈ names)) as [Hmem|Hmem].
    + split; [auto | intros Hno; exfalso; apply Hno; by right].
    + rewrite (Hout Hmem). split.
      * intros [->|?]%elem_of_cons; [apply live_remove_eq | done].
      * intros Hno. apply live_remove_ne. intros ->. apply Hno. by left.
  - destruct (IH st) as [Hin Hout]. split.
    + intros [->|?]%elem_of_cons; [|auto].
      destruct (decide (n ∈ names)); [auto|]. by rewrite Hout.
    + intros Hno. apply Hout. intros ?. apply Hno. by right.
Qed.

(** DEL of a list is DEL of its head, then DEL of the rest. *)
Lemma delete_all_cons (n : string) (names : list string) (st : store) :
  delete_all (n :: names) st
  = ((delete_all [n] st).1 + (delete_all names (delete_all [n] st).2).1,
     (delete_all names (delete_all [n] st).2).2).
Proof.
  cbn [delete_all]. destruct (live st n); cbn [fst snd].
  - destruct (delete_all names (remove st n)). cbn [fst snd]. f_equal; lia.
  - by destruct (delete_all names st).
Qed.

Lemma delete_all_count_bounds (names : list string) (st : store) :
  0 ≤ (delete_all names st).1 ≤ Z.of_nat (length names).
Proof.
  revert st. induction names as [|n names IH]; intros st; [done|].
  cbn [delete_all length]. destruct (live st n).
  - specialize (IH (remove st n)).
    destruct (delete_all names (remove st n)). cbn [fst] in *. lia.
  - specialize (IH st). lia.
Qed.

(** X4.  On the reference store [delete] issues one DEL on the prefixed key;
    it returns [1] when the key was there and [0] when it was missing or had
    run out.  Afterwards [get] of the key returns [None] and [get] of any
    other key returns what it returned before. *)
Theorem delete_semantics `{Pickle} (self : RedisCache) (key : string)
    (st : store) :
  let name := key_prefix self +:+ key in
  let st' := (run (delete self key) st).1.2 in
  (run (delete self key) st).1.1
  = Ret (if is_live st name then 1 else 0) ∧
  (run (delete self key) st).2 = [CDelete [name]] ∧
  (run (get self key) st').1.1 = Ret PyNone ∧
  (∀ key', key' ≠ key →
     (run (get self key') st').1.1 = (run (get self key') st).1.1).
Proof.
  intros name st'. subst st'. rewrite run_delete_store. fold (physical self key).
  unfold is_live. subst name. fold (physical self key).
  destruct (live st (physical self key)) as [e|] eqn:Hlive; cbn [fst snd].
  - repeat split.
    + by rewrite run_get_store, live_remove_eq.
    + intros key' Hne. rewrite !run_get_store. cbn [fst].
      rewrite live_remove_ne; [done|]. by intros ?%physical_inj.
  - repeat split. by rewrite run_get_store, Hlive.
Qed.

(** X5.  On the reference store [delete_many] on a key and more keys does
    what [delete] on the key followed by [delete_many] on the others does:
    the same final store, and the two counts added.  The count lies between
    [0] and the number of keys, and afterwards every key listed is gone. *)
Theorem delete_many_sequential (self : RedisCache) (key : string)
    (keys : list string) (st : store) :
  keys ≠ [] →
  ∃ n1 n2,
    (run (delete self key) st).1.1 = Ret n1 ∧
    (run (delete_many self keys) (run (delete self key) st).1.2).1.1
    = Ret (Some n2) ∧
    (run (delete_many self (key :: keys)) st).1.1 = Ret (Some (n1 + n2)) ∧
    (run (delete_many self (key :: keys)) st).1.2
    = (run (delete_many self keys) (run (delete self key) st).1.2).1.2 ∧
    0 ≤ n1 + n2 ≤ Z.of_nat (length (key :: keys)) ∧
    (∀ k, k ∈ key :: keys →
       live (run (delete_many self (key :: keys)) st).1.2
         (key_prefix self +:+ k) = None).
Proof.
  intros Hkeys.
  assert (Hrun : ∀ ks st0, ks ≠ [] →
            run (delete_many self ks) st0
            = (Ret (Some (delete_all (prefixed_keys self ks) st0).1),
               (delete_all (prefixed_keys self ks) st0).2,
               [CDelete (prefixed_keys self ks)])).
  { intros ks st0 Hks. destruct ks as [|k ks]; [done|].
    unfold delete_many, client_delete, call.
    cbn [mbind prog_mbind prog_bind run client_call store_client].
    by destruct (delete_all (prefixed_keys self (k :: ks)) st0). }
  assert (Hdel : ∀ st0, run (delete self key) st0
            = (Ret (delete_all [physical self key] st0).1,
               (delete_all [physical self key] st0).2,
               [CDelete [physical self key]])).
  { intros st0. rewrite run_delete_store. cbn [delete_all].
    by destruct (live st0 (physical self key)). }
  exists (delete_all [physical self key] st).1,
    (delete_all (prefixed_keys self keys)
       (delete_all [physical self key] st).2).1.
  rewrite Hdel, !Hrun by done. cbn [fst snd].
  rewrite !prefixed_keys_map. rewrite fmap_cons.
  fold (physical self key).
  set (names := (λ k, key_prefix self +:+ k) <$> keys).
  rewrite (delete_all_cons (physical self key) names st). cbn [fst snd].
  pose proof (delete_all_count_bounds [physical self key] st) as H1.
  pose proof (delete_all_count_bounds names
                (delete_all [physical self key] st).2) as H2.
  assert (length names = length keys) as Hlen by apply length_fmap.
  rewrite Hlen in H2. cbn [length] in *.
  repeat split; try done; try lia.
  intros k Hk.
  destruct (live_delete_all (physical self key :: names) st
              (key_prefix self +:+ k)) as [Hlive _].
  rewrite (delete_all_cons (physical self key) names st) in Hlive.
  apply Hlive.
  change (physical self key :: names)
    with ((λ k, key_prefix self +:+ k) <$> key :: keys).
  by apply list_elem_of_fmap_2.
Qed.

Lemma delete_many_sequential_witness :
  let self := Build_RedisCache 300 None "p:" in
  let st := Store 0 {[ "p:a"%string := Entry (lit "1") None;
                       "p:b"%string := Entry (lit "2") None ]} in
  (run (delete_many self ["a"; "a"; "c"; "b"]%string) st).1.1 = Ret (Some 2) ∧
  (run (delete_many self ["a"; "a"; "c"; "b"]%string) st).1.2 = Store 0 ∅.
Proof.
  intros self st.
  destruct (delete_many_sequential self "a" ["a"; "c"; "b"]%string st)
    as (n1 & n2 & H1 & H2 & H3 & H4 & _); [done|].
  injection H1 as <-. injection H2 as <-. split; [exact H3|].
  rewrite H4. reflexivity.
Defined.

Section StoreCalls.
Variable glob : string → string → bool.

Lemma run_has_store (self : RedisCache) (key : string) (st : store) :
  store_xrun glob (has self key) st
  = (Ret (if is_live st (physical self key) then 1 else 0), st,
     [Ext (XExists (physical self key))]).
Proof. done. Qed.

Lemma run_incr_store (self : RedisCache) (key : string) (amount : Z)
    (st : store) :
  store_xrun glob (inc self key amount) st
  = (let '(r, st') := incr_by (physical self key) amount st in
     (r, st', [Ext (XIncr (physical self key) amount)])).
Proof.
  unfold store_xrun, inc, client_incr, xcall.
  cbn [xrun any_call xclient_call store_xclient].
  by destruct (incr_by (physical self key) amount st) as [[n|e] st'].
Qed.

Lemma run_dec_store (self : RedisCache) (key : string) (delta : Z)
    (st : store) :
  store_xrun glob (dec self key delta) st
  = (let '(r, st') := incr_by (physical self key) (- delta) st in
     (r, st', [Ext (XIncr (physical self key) (- delta))])).
Proof. apply (run_incr_store self key (- delta)). Qed.

End StoreCalls.

Lemma redis_int_str_int (n : Z) : int64 n = true → redis_int (str_int n) = Some n.
Proof.
  intros Hn. unfold redis_int. rewrite parse_int_str_int, Hn.
  by rewrite bool_decide_eq_true_2.
Qed.

Lemma redis_int_canonical (s : bytes) (n : Z) :
  redis_int s = Some n → s = str_int n ∧ int64 n = true.
Proof.
  unfold redis_int. destruct (parse_int s) as [m|]; [|done].
  destruct (int64 m) eqn:Hm; [|done]. simpl.
  case_bool_decide as Hs; [|done]. by intros [= <-].
Qed.

Lemma redis_int_tagged (s : bytes) :
  startswith_tag s = true → redis_int s = None.
Proof.
  destruct s as [|c s]; [done|]. simpl. intros Hc%byte_dec_bl. by subst c.
Qed.

(** X6.  [has] never decodes: on the reference store it returns [1] for a key
    that is there and has not run out, [0] otherwise, it never raises and it
    leaves the store alone; and when it returns [0], [get] returns [None]. *)
Theorem has_semantics `{Pickle} (glob : string → string → bool)
    (self : RedisCache) (key : string) (st : store) :
  (store_xrun glob (has self key) st).1
  = (Ret (if is_live st (key_prefix self +:+ key) then 1 else 0), st) ∧
  ((store_xrun glob (has self key) st).1.1 = Ret 0 →
   (run (get self key) st).1.1 = Ret PyNone).
Proof.
  rewrite run_has_store, run_get_store. unfold is_live, physical.
  split; [done|]. cbn [fst].
  by destruct (live st (key_prefix self +:+ key)).
Qed.

(** X7.  On the reference store, after a [set] of any value that encodes,
    with a timeout that normalizes to [-1] or to a positive [t], [has] returns
    [1] while less than [t] seconds have passed (always, for [-1]) and [0]
    from then on. *)
Theorem has_after_set `{Pickle} (glob : string → string → bool)
    (self : RedisCache) (key : string) (value : PyVal) (timeout : option Z)
    (dump : bytes) (st : store) (dt : Z) :
  dump_object value = Ret dump →
  _normalize_timeout self timeout = -1 ∨ 0 < _normalize_timeout self timeout →
  0 ≤ dt →
  let t := _normalize_timeout self timeout in
  let st' := (run (set self key value timeout) st).1.2 in
  (store_xrun glob (has self key) (advance dt st')).1.1
  = Ret (if (t =? -1) || (dt <? t) then 1 else 0).
Proof.
  intros Hdump Ht Hdt t st'. subst st'.
  rewrite (run_set_store self key value timeout dump st Hdump). fold t.
  rewrite run_has_store. unfold is_live. cbn [fst].
  destruct (Z.eqb_spec t (-1)) as [Hm|Hm]; cbn [fst snd orb].
  - by rewrite live_advance_put.
  - assert (0 < t) as Hpos by (subst t; lia).
    destruct (Z.leb_spec t 0); [lia|]. cbn [fst snd].
    rewrite live_advance_put, expired_advance.
    by destruct (Z.ltb_spec dt t), (Z.leb_spec (now st + t) (now st + dt));
      try lia.
Qed.

Lemma has_after_set_witness :
  let self := Build_RedisCache 300 None "p:" in
  let st' := (run (set self "k" (PyInt 5) (Some 10)) (Store 0 ∅)).1.2 in
  (store_xrun literal_glob (has self "k") (advance 9 st')).1.1 = Ret 1 ∧
  (store_xrun literal_glob (has self "k") (advance 10 st')).1.1 = Ret 0.
Proof.
  intros self st'. split.
  - apply (has_after_set literal_glob self "k" (PyInt 5) (Some 10) (lit "5")
             (Store 0 ∅) 9); [reflexivity | by right | done].
  - apply (has_after_set literal_glob self "k" (PyInt 5) (Some 10) (lit "5")
             (Store 0 ∅) 10); [reflexivity | by right | done].
Defined.

(** X8.  On the reference store [get_many] returns, key by key and in order,
    what [get] returns for each key, and raises the first exception that a
    [get] would raise; the store is left alone. *)
Theorem get_many_agrees_with_get `{Pickle} (self : RedisCache)
    (keys : list string) (st : store) :
  (run (get_many self keys) st).1
  = (mapM (λ key, (run (get self key) st).1.1) keys, st).
Proof.
  unfold get_many, client_mget, call. cbn [mbind prog_mbind prog_bind].
  rewrite run_call_then. cbn [client_call store_client fst].
  f_equal. rewrite prefixed_keys_map.
  induction keys as [|key keys IH]; [done|].
  cbn [fmap list_fmap mapM]. rewrite run_get_store. cbn [fst].
  unfold physical. by rewrite <- IH.
Qed.

(** ** [inc] and [dec] *)

Lemma live_not_expired (st : store) (name : string) (e : entry) :
  live st name = Some e → expired st e = false.
Proof.
  unfold live. destruct (entries st !! name) as [e'|]; [|done].
  destruct (expired st e') eqn:He; [done|]. by intros [= <-].
Qed.

Lemma put_put (st : store) (name : string) (e1 e2 : entry) :
  put (put st name e1) name e2 = put st name e2.
Proof. unfold put. simpl. by rewrite insert_insert_eq. Qed.

(** INCRBY on an entry that holds the text of a number. *)
Lemma incr_by_number (name : string) (amount n : Z) (e : entry) (st : store) :
  live st name = Some e → redis_int (payload e) = Some n →
  int64 amount = true → int64 (n + amount) = true →
  incr_by name amount st
  = (Ret (n + amount),
     put st name (Entry (str_int (n + amount)) (deadline e))).
Proof.
  intros Hlive Hn Ha Hsum. unfold incr_by. by rewrite Hlive, Hn, Ha, Hsum.
Qed.

(** The entry [set] has just written is there. *)
Lemma live_after_set (st : store) (name : string) (dump : bytes) (t : Z) :
  0 < t →
  live (put st name (Entry dump (Some (now st + t)))) name
  = Some (Entry dump (Some (now st + t))).
Proof.
  intros Ht. rewrite live_put_eq. unfold expired. simpl.
  by destruct (Z.leb_spec (now st + t) (now st)); [lia|].
Qed.

(** X9.  The compact encoding of integers is what INCRBY reads: on the
    reference store, after [set] of an [int] [n], [inc] by [delta] returns
    [n + delta], a following [get] returns the [int] [n + delta], and the
    deadline of the entry is the one [set] gave it, as long as the numbers fit
    in 64 bits. *)
Theorem inc_after_set `{Pickle} (glob : string → string → bool)
    (self : RedisCache) (key : string) (n delta : Z) (timeout : option Z)
    (st : store) :
  int64 n = true → int64 delta = true → int64 (n + delta) = true →
  _normalize_timeout self timeout = -1 ∨ 0 < _normalize_timeout self timeout →
  let name := key_prefix self +:+ key in
  let st1 := (run (set self key (PyInt n) timeout) st).1.2 in
  let st2 := (store_xrun glob (inc self key delta) st1).1.2 in
  (store_xrun glob (inc self key delta) st1).1.1 = Ret (n + delta) ∧
  (run (get self key) st2).1.1 = Ret (PyInt (n + delta)) ∧
  deadline <$> live st2 name = deadline <$> live st1 name.
Proof.
  intros Hn Hd Hsum Ht name st1 st2.
  assert (∃ d, st1 = put st name (Entry (str_int n) d) ∧
               live st1 name = Some (Entry (str_int n) d)) as (d & Hst1 & Hlive).
  { subst st1.
    rewrite (run_set_store self key (PyInt n) timeout (str_int n) st
               (dump_object_int n (int64_in_limit n Hn))).
    fold name. destruct Ht as [Ht|Ht].
    - rewrite Ht. cbn [Z.eqb fst snd]. eexists. split; [done|].
      apply live_put.
    - destruct (Z.eqb_spec (_normalize_timeout self timeout) (-1)); [lia|].
      destruct (Z.leb_spec (_normalize_timeout self timeout) 0); [lia|].
      cbn [fst snd]. eexists. split; [done|]. by apply live_after_set. }
  assert (Hinc : store_xrun glob (inc self key delta) st1
                 = (Ret (n + delta),
                    put st1 name (Entry (str_int (n + delta)) d),
                    [Ext (XIncr name delta)])).
  { rewrite run_incr_store. unfold physical. fold name.
    by rewrite (incr_by_number name delta n _ st1 Hlive)
      by (done || by apply redis_int_str_int). }
  subst st2. rewrite Hinc. cbn [fst snd].
  assert (live (put st1 name (Entry (str_int (n + delta)) d)) name
          = Some (Entry (str_int (n + delta)) d)) as Hlive2.
  { rewrite live_put_eq.
    apply live_not_expired in Hlive. unfold expired in *. simpl in *.
    by rewrite Hlive. }
  repeat split.
  - rewrite run_get_store. unfold physical. fold name. rewrite Hlive2. simpl.
    by apply load_object_str_int, int64_in_limit.
  - by rewrite Hlive2, Hlive.
Qed.

Lemma inc_after_set_witness :
  let self := Build_RedisCache 300 None "p:" in
  let st1 := (run (set self "a" (PyInt 42) None) (Store 0 ∅)).1.2 in
  let st2 := (store_xrun literal_glob (inc self "a" 3) st1).1.2 in
  (store_xrun literal_glob (inc self "a" 3) st1).1.1 = Ret 45 ∧
  (run (get self "a") st2).1.1 = Ret (PyInt 45) ∧
  deadline <$> live st2 "p:a" = Some (Some 300).
Proof.
  intros self st1 st2.
  destruct (inc_after_set literal_glob self "a" 42 3 None (Store 0 ∅))
    as (Hret & Hget & Hdl); [done | done | done | by right |].
  split; [exact Hret|]. split; [exact Hget|].
  etransitivity; [exact Hdl | reflexivity].
Defined.

(** X10.  On the reference store [dec] undoes [inc]: on a key that holds
    the text of a number [n], [inc] by [delta] returns [n + delta], [dec] by
    [delta] then returns [n], and the store is again what it was, as long as
    the numbers fit in 64 bits. *)
Theorem dec_undoes_inc (glob : string → string → bool) (self : RedisCache)
    (key : string) (n delta : Z) (e : entry) (st : store) :
  live st (key_prefix self +:+ key) = Some e →
  redis_int (payload e) = Some n →
  int64 delta = true → int64 (- delta) = true → int64 (n + delta) = true →
  let st1 := (store_xrun glob (inc self key delta) st).1.2 in
  (store_xrun glob (inc self key delta) st).1.1 = Ret (n + delta) ∧
  (store_xrun glob (dec self key delta) st1).1 = (Ret n, st).
Proof.
  intros Hlive Hn Hd Hnd Hsum st1. subst st1.
  set (name := key_prefix self +:+ key) in *.
  destruct (redis_int_canonical _ _ Hn) as [Hpay Hn64].
  rewrite run_incr_store. unfold physical. fold name.
  rewrite (incr_by_number name delta n e st Hlive Hn Hd Hsum). cbn [fst snd].
  split; [done|]. rewrite run_dec_store. unfold physical. fold name.
  assert (live (put st name (Entry (str_int (n + delta)) (deadline e))) name
          = Some (Entry (str_int (n + delta)) (deadline e))) as Hlive1.
  { rewrite live_put_eq. apply live_not_expired in Hlive.
    unfold expired in *. simpl. by rewrite Hlive. }
  rewrite (incr_by_number name (- delta) (n + delta) _ _ Hlive1);
    [|by apply redis_int_str_int | done
     |by replace (n + delta + - delta) with n by lia].
  cbn [fst snd payload deadline]. replace (n + delta + - delta) with n by lia.
  rewrite put_put. f_equal. rewrite <- Hpay.
  apply put_live_id. by destruct e.
Qed.

Lemma dec_undoes_inc_witness :
  let self := Build_RedisCache 300 None "p:" in
  let st := Store 5 {[ "p:n"%string := Entry (lit "-7") (Some 60) ]} in
  let st1 := (store_xrun literal_glob (inc self "n" 10) st).1.2 in
  (store_xrun literal_glob (inc self "n" 10) st).1.1 = Ret 3 ∧
  (store_xrun literal_glob (dec self "n" 10) st1).1 = (Ret (-7), st).
Proof.
  intros self st st1.
  apply (dec_undoes_inc literal_glob self "n" (-7) 10
           (Entry (lit "-7") (Some 60)) st); reflexivity.
Defined.



(** X12.  A value that is not an [int], a [bool] included, is stored with
    the tag in front and is no number to the server: on the reference store
    [inc] after such a [set] raises [ResponseError] and changes nothing. *)
Theorem inc_on_tagged_value `{Pickle} (glob : string → string → bool)
    (self : RedisCache) (key : string) (value : PyVal) (timeout : option Z)
    (dump : bytes) (delta : Z) (st : store) :
  type_is_int value = false →
  dump_object value = Ret dump →
  _normalize_timeout self timeout = -1 ∨ 0 < _normalize_timeout self timeout →
  let st1 := (run (set self key value timeout) st).1.2 in
  (store_xrun glob (inc self key delta) st1).1 = (Raise ResponseError, st1).
Proof.
  intros Hty Hdump Ht st1.
  assert (startswith_tag dump = true) as Htag.
  { rewrite dump_object_other in Hdump by done.
    destruct (pickle_dumps value); [|done]. by injection Hdump as <-. }
  assert (∃ d, live st1 (physical self key) = Some (Entry dump d)) as [d Hlive].
  { subst st1.
    rewrite (run_set_store self key value timeout dump st Hdump).
    destruct Ht as [Ht|Ht].
    - rewrite Ht. cbn [Z.eqb fst snd]. eexists. apply live_put.
    - destruct (Z.eqb_spec (_normalize_timeout self timeout) (-1)); [lia|].
      destruct (Z.leb_spec (_normalize_timeout self timeout) 0); [lia|].
      cbn [fst snd]. eexists. by apply live_after_set. }
  rewrite run_incr_store. unfold incr_by. rewrite Hlive. simpl payload.
  by rewrite (redis_int_tagged dump Htag).
Qed.

Lemma inc_on_tagged_value_witness :
  let self := Build_RedisCache 300 None "p:" in
  let st1 := (run (set self "flag" (PyBool true) None) (Store 0 ∅)).1.2 in
  (store_xrun literal_glob (inc self "flag" 1) st1).1
  = (Raise ResponseError, st1).
Proof.
  intros self st1.
  apply (inc_on_tagged_value literal_glob self "flag" (PyBool true) None
           (tag :: TinyPickle.PROTO :: TinyPickle.byte_of_Z 3
            :: [TinyPickle.NEWTRUE; TinyPickle.STOP]) 1 (Store 0 ∅));
    [reflexivity | reflexivity | by right].
Defined.

(** ** [set_many] *)

Section FillPipe.
Context `{Pickle}.
Variable self : RedisCache.

Lemma fill_pipe_encoded (t : Z) (items : list (string * PyVal))
    (dumps : list bytes) (pipe : list queued) :
  Forall2 (λ item d, dump_object item.2 = Ret d) items dumps →
  fill_pipe self t items pipe
  = Ret (pipe ++ zip_with (λ item d, queued_for self t item.1 d) items dumps).
Proof.
  intros Hall. revert pipe.
  induction Hall as [|[key value] d items dumps Hd _ IH]; intros pipe.
  - by rewrite app_nil_r.
  - cbn [fill_pipe zip_with]. simpl in Hd. rewrite Hd.
    cbn [mbind result_bind]. rewrite IH. by rewrite <- app_assoc.
Qed.

Lemma fill_pipe_raises (t : Z) (items1 items2 : list (string * PyVal))
    (key : string) (value : PyVal) (e : exn) (pipe : list queued) :
  Forall (λ item, returns (dump_object item.2)) items1 →
  dump_object value = Raise e →
  fill_pipe self t (items1 ++ (key, value) :: items2) pipe = Raise e.
Proof.
  intros Hall He. revert pipe.
  induction Hall as [|[k v] items1 [d Hd] _ IH]; intros pipe.
  - cbn [app fill_pipe]. by rewrite He.
  - cbn [app fill_pipe]. simpl in Hd. rewrite Hd. apply IH.
Qed.

End FillPipe.

(** A queued command does on the reference store what [set] does, when the
    timeout is one the server accepts. *)
Lemma exec_queued_set `{Pickle} (self : RedisCache) (key : string)
    (value : PyVal) (timeout : option Z) (dump : bytes) (st : store) :
  _normalize_timeout self timeout = -1 ∨ 0 < _normalize_timeout self timeout →
  dump_object value = Ret dump →
  exec_queued (queued_for self (_normalize_timeout self timeout) key dump) st
  = (Ret (Some true), (run (set self key value timeout) st).1.2).
Proof.
  intros Ht Hdump.
  rewrite (run_set_store self key value timeout dump st Hdump).
  unfold queued_for, exec_queued.
  destruct (Z.eqb_spec (_normalize_timeout self timeout) (-1)) as [Hm|Hm];
    [done|].
  destruct (Z.leb_spec (_normalize_timeout self timeout) 0); [lia|].
  cbn [client_call store_client fst snd].
  by destruct (Z.leb_spec (_normalize_timeout self timeout) 0); [lia|].
Qed.

(** What the pipeline of [set_many] does on the reference store. *)
Lemma exec_stack_sets `{Pickle} (self : RedisCache) (timeout : option Z)
    (items : list (string * PyVal)) (dumps : list bytes) (st : store) :
  _normalize_timeout self timeout = -1 ∨ 0 < _normalize_timeout self timeout →
  Forall2 (λ item d, dump_object item.2 = Ret d) items dumps →
  exec_stack
    (zip_with (λ item d,
       queued_for self (_normalize_timeout self timeout) item.1 d) items dumps)
    st
  = (replicate (length items) (Ret (Some true)), set_each self timeout items st).
Proof.
  intros Ht Hall. revert st.
  induction Hall as [|[key value] d items dumps Hd _ IH]; intros st; [done|].
  simpl in Hd. cbn [zip_with exec_stack length replicate fst].
  rewrite (exec_queued_set self key value timeout d st Ht Hd), IH.
  done.
Qed.

Lemma mapM_replicate_Ret {A} (n : nat) (a : A) :
  mapM (λ r : result A, r) (replicate n (Ret a)) = Ret (replicate n a).
Proof. induction n as [|n IH]; [done|]. simpl. by rewrite IH. Qed.

Lemma run_set_many_store `{Pickle} (glob : string → string → bool)
    (self : RedisCache) (timeout : option Z) (items : list (string * PyVal))
    (dumps : list bytes) (st : store) :
  _normalize_timeout self timeout = -1 ∨ 0 < _normalize_timeout self timeout →
  Forall2 (λ item d, dump_object item.2 = Ret d) items dumps →
  (store_xrun glob (set_many self items timeout) st).1
  = (Ret (replicate (length items) (Some true)),
     set_each self timeout items st).
Proof.
  intros Ht Hall. unfold store_xrun, set_many.
  rewrite (fill_pipe_encoded self _ items dumps []) by done.
  cbn [xlift mbind xprog_mbind xprog_bind app pipe_execute xcall xrun any_call
       xclient_call store_xclient].
  rewrite (exec_stack_sets self timeout items dumps st Ht Hall).
  by rewrite mapM_replicate_Ret.
Qed.

Lemma Forall_encodes_dumps `{Pickle} (items : list (string * PyVal)) :
  Forall (λ item, returns (dump_object item.2)) items →
  ∃ dumps, Forall2 (λ item d, dump_object item.2 = Ret d) items dumps.
Proof.
  induction 1 as [|item items [d Hd] _ [dumps IH]]; [by exists []|].
  exists (d :: dumps). by constructor.
Qed.

(** X13.  If a value of the mapping cannot be encoded, [set_many] raises
    what [dump_object] raises and has called the client not at all: the values
    before it were only queued, so nothing of the mapping is written. *)
Theorem set_many_encoding_error `{Pickle} {St : Type} `{!Client St}
    `{!XClient St} (self : RedisCache) (items1 items2 : list (string * PyVal))
    (key : string) (value : PyVal) (timeout : option Z) (e : exn) (s : St) :
  Forall (λ item, returns (dump_object item.2)) items1 →
  dump_object value = Raise e →
  xrun (set_many self (items1 ++ (key, value) :: items2) timeout) s
  = (Raise e, s, []).
Proof.
  intros Hall He. unfold set_many.
  by rewrite (fill_pipe_raises self _ items1 items2 key value e []).
Qed.

(** X14.  When every value encodes, [set_many] calls the client exactly
    once, to execute a pipeline that holds one command for each item, in the
    order of the items: SET when the normalized timeout is [-1], SETEX with
    the normalized seconds otherwise.  It returns what [execute] returns. *)
Theorem set_many_pipeline `{Pickle} {St : Type} `{!Client St} `{!XClient St}
    (self : RedisCache) (items : list (string * PyVal)) (dumps : list bytes)
    (timeout : option Z) (s : St) :
  Forall2 (λ item d, dump_object item.2 = Ret d) items dumps →
  let stack :=
    zip_with (λ item d,
      queued_for self (_normalize_timeout self timeout) item.1 d)
      items dumps in
  xrun (set_many self items timeout) s
  = (let '(r, s') := xclient_call (XExecute stack) s in
     (r, s', [Ext (XExecute stack)])) ∧
  length stack = length items.
Proof.
  intros Hall stack. split.
  - unfold set_many. rewrite (fill_pipe_encoded self _ items dumps []) by done.
    cbn [xlift mbind xprog_mbind xprog_bind app pipe_execute xcall xrun
         any_call]. fold stack.
    by destruct (xclient_call (XExecute stack) s) as [[r|e] s'].
  - subst stack. rewrite length_zip_with.
    apply Forall2_length in Hall. lia.
Qed.

(** X15.  On the reference store, with a timeout that normalizes to [-1] or
    to a positive number and values that all encode, [set_many] leaves the
    store as [set] on each item in turn leaves it, and returns one true
    acknowledgement for each item. *)
Theorem set_many_as_sets `{Pickle} (glob : string → string → bool)
    (self : RedisCache) (timeout : option Z) (items : list (string * PyVal))
    (st : store) :
  _normalize_timeout self timeout = -1 ∨ 0 < _normalize_timeout self timeout →
  Forall (λ item, returns (dump_object item.2)) items →
  (store_xrun glob (set_many self items timeout) st).1.1
  = Ret (replicate (length items) (Some true)) ∧
  (store_xrun glob (set_many self items timeout) st).1.2
  = set_each self timeout items st.
Proof.
  intros Ht [dumps Hall]%Forall_encodes_dumps.
  by rewrite (run_set_many_store glob self timeout items dumps st Ht Hall).
Qed.

Lemma set_many_encoding_error_witness :
  let self := Build_RedisCache 300 None "p:" in
  let deep := PyTuple [PyTuple [PyTuple []]] in
  @xrun store store_client (store_xclient literal_glob) _
    (@set_many (limited_pickle 2) self
       [("a", PyInt 1); ("b", deep); ("c", PyInt 3)]%string None)
    (Store 0 ∅)
  = (Raise RuntimeError, Store 0 ∅, []).
Proof.
  intros self deep.
  apply (@set_many_encoding_error (limited_pickle 2) store store_client
           (store_xclient literal_glob) self [("a", PyInt 1)]%string
           [("c", PyInt 3)]%string "b" deep None RuntimeError (Store 0 ∅)).
  - repeat constructor. by eexists.
  - reflexivity.
Defined.

Lemma set_many_pipeline_witness :
  let self := Build_RedisCache 300 None "p:" in
  @xrun store store_client (store_xclient literal_glob) _
    (set_many self [("a", PyInt 1); ("b", PyInt 2)]%string (Some 0))
    (Store 0 ∅)
  = (Ret [Some true; Some true],
     Store 0 {[ "p:a"%string := Entry (lit "1") None;
                "p:b"%string := Entry (lit "2") None ]},
     [Ext (XExecute [QSet "p:a" (lit "1"); QSet "p:b" (lit "2")])]).
Proof.
  intros self.
  destruct (@set_many_pipeline TinyPickle.tiny_pickle store store_client
              (store_xclient literal_glob) self
              [("a", PyInt 1); ("b", PyInt 2)]%string [lit "1"; lit "2"]
              (Some 0) (Store 0 ∅)) as [Hrun _].
  - by repeat constructor.
  - rewrite Hrun. reflexivity.
Defined.

Lemma set_many_as_sets_witness :
  let self := Build_RedisCache 300 None "p:" in
  let items := [("a", PyInt 1); ("b", PyBool false)]%string in
  (store_xrun literal_glob (set_many self items None) (Store 7 ∅)).1.1
  = Ret [Some true; Some true] ∧
  (store_xrun literal_glob (set_many self items None) (Store 7 ∅)).1.2
  = set_each self None items (Store 7 ∅).
Proof.
  intros self items.
  apply (set_many_as_sets literal_glob self None items (Store 7 ∅)).
  - by right.
  - repeat constructor; by eexists.
Defined.

Lemma set_each_now `{Pickle} (self : RedisCache) (timeout : option Z)
    (items : list (string * PyVal)) (st : store) :
  now (set_each self timeout items st) = now st.
Proof.
  revert st. induction items as [|[key value] items IH]; intros st; [done|].
  unfold set_each in *. cbn [foldl]. rewrite IH. cbn [fst snd].
  destruct (dump_object value) as [d|e] eqn:Hd.
  - rewrite (run_set_store self key value timeout d st Hd).
    by repeat case_match.
  - by rewrite (set_encoding_error self key value timeout e st Hd).
Qed.

(** The entry under a key of the mapping, after [set] on each item. *)
Lemma set_each_lookup `{Pickle} (self : RedisCache) (timeout : option Z)
    (items : list (string * PyVal)) (st : store) (key : string)
    (value : PyVal) (dump : bytes) :
  _normalize_timeout self timeout = -1 ∨ 0 < _normalize_timeout self timeout →
  NoDup items.*1 →
  (key, value) ∈ items →
  dump_object value = Ret dump →
  entries (set_each self timeout items st) !! physical self key
  = Some (Entry dump
            (if _normalize_timeout self timeout =? -1 then None
             else Some (now st + _normalize_timeout self timeout))).
Proof.
  intros Ht. revert st.
  induction items as [|[k v] items IH] using rev_ind; intros st Hnd Hin Hdump.
  { by apply elem_of_nil in Hin. }
  unfold set_each in *. rewrite foldl_app. cbn [foldl fst snd].
  rewrite fmap_app in Hnd. apply NoDup_app in Hnd as (Hnd & Hfresh & _).
  apply elem_of_app in Hin as [Hin|Hin].
  - assert (k ≠ key) as Hne.
    { intros ->. apply (Hfresh key); [|by left].
      apply list_elem_of_fmap. by exists (key, value). }
    specialize (IH st Hnd Hin Hdump).
    destruct (dump_object v) as [d|e] eqn:Hd.
    + rewrite (run_set_store self k v timeout d _ Hd).
      assert (physical self k ≠ physical self key) as Hphys
        by (by intros ?%physical_inj).
      repeat case_match; cbn [fst snd]; unfold put; cbn [entries];
        by rewrite ?lookup_insert_ne.
    + by rewrite (set_encoding_error self k v timeout e _ Hd).
  - apply list_elem_of_singleton in Hin. injection Hin as <- <-.
    rewrite (run_set_store self key value timeout dump _ Hdump).
    pose proof (set_each_now self timeout items st) as Hnow.
    unfold set_each in Hnow.
    destruct Ht as [Ht|Ht].
    + rewrite Ht. change (-1 =? -1) with true. cbn [fst snd].
      unfold put. cbn [entries]. by rewrite lookup_insert_eq.
    + destruct (Z.eqb_spec (_normalize_timeout self timeout) (-1)); [lia|].
      destruct (Z.leb_spec (_normalize_timeout self timeout) 0); [lia|].
      cbn [fst snd]. unfold put. cbn [entries now].
      by rewrite lookup_insert_eq, Hnow.
Qed.

(** X16.  On the reference store, after [set_many] of a mapping with
    distinct keys and values that round-trip, with a timeout that normalizes
    to [-1] or to a positive [t], [get] of each key of the mapping returns its
    value while less than [t] seconds have passed (always, for [-1]) and
    [None] from then on. *)
Theorem set_many_then_get `{Pickle} (glob : string → string → bool)
    (self : RedisCache) (timeout : option Z) (items : list (string * PyVal))
    (st : store) (dt : Z) (key : string) (value : PyVal) :
  _normalize_timeout self timeout = -1 ∨ 0 < _normalize_timeout self timeout →
  NoDup items.*1 →
  Forall (λ item, (type_is_int item.2 = true ∨ pickle_supports item.2)
                  ∧ in_digit_limit item.2) items →
  (key, value) ∈ items →
  0 ≤ dt →
  let t := _normalize_timeout self timeout in
  let st' := (store_xrun glob (set_many self items timeout) st).1.2 in
  (run (get self key) (advance dt st')).1.1
  = if (t =? -1) || (dt <? t) then Ret value else Ret PyNone.
Proof.
  intros Ht Hnd Hall Hin Hdt t st'. subst st'.
  assert (Forall (λ item, returns (dump_object item.2)) items) as Henc.
  { eapply Forall_impl; [exact Hall|]. intros item [Hitem Hlimit].
    by apply dump_object_returns. }
  destruct (Forall_encodes_dumps items Henc) as [dumps Hdumps].
  rewrite (run_set_many_store glob self timeout items dumps st Ht Hdumps).
  cbn [fst snd].
  assert ((type_is_int value = true ∨ pickle_supports value)
          ∧ in_digit_limit value) as [Hv Hlimit].
  { by apply (proj1 (Forall_forall _ _) Hall (key, value)). }
  destruct (dump_object_returns value Hv Hlimit) as [dump Hdump].
  pose proof (set_each_lookup self timeout items st key value dump
                Ht Hnd Hin Hdump) as Hlook.
  pose proof (set_each_now self timeout items st) as Hnow.
  rewrite run_get_store. cbn [fst]. unfold live, advance, expired.
  cbn [entries now]. rewrite Hlook, Hnow. cbn [deadline]. fold t.
  destruct (Z.eqb_spec t (-1)) as [Hm|Hm]; cbn [orb fmap option_fmap option_map].
  - by apply load_object_dump.
  - assert (0 < t) by (subst t; lia).
    destruct (Z.ltb_spec dt t), (Z.leb_spec (now st + t) (now st + dt));
      try lia; cbn [fmap option_fmap option_map];
      [by apply load_object_dump | done].
Qed.

Lemma set_many_then_get_witness :
  let self := Build_RedisCache 300 None "p:" in
  let items := [("a", PyInt 1); ("b", PyBool false)]%string in
  let st' := (store_xrun literal_glob (set_many self items (Some 60))
                (Store 0 ∅)).1.2 in
  (run (get self "b") (advance 59 st')).1.1 = Ret (PyBool false) ∧
  (run (get self "b") (advance 60 st')).1.1 = Ret PyNone.
Proof.
  intros self items st'.
  assert (Hall : Forall (λ item : string * PyVal,
                   (type_is_int item.2 = true ∨ pickle_supports item.2)
                   ∧ in_digit_limit item.2) items).
  { constructor;
      [split; [by left | apply in_digit_limit_int64; reflexivity]|].
    constructor; [|constructor].
    split; [|exact I]. right. eexists. split; reflexivity. }
  assert (Hnd : NoDup items.*1).
  { apply (bool_decide_unpack _). reflexivity. }
  split.
  - apply (set_many_then_get literal_glob self (Some 60) items (Store 0 ∅) 59
             "b" (PyBool false)); [by right | done | done | set_solver | done].
  - apply (set_many_then_get literal_glob self (Some 60) items (Store 0 ∅) 60
             "b" (PyBool false)); [by right | done | done | set_solver | done].
Defined.

(** ** [clear] *)

Lemma prefix_append (p k : string) : String.prefix p (p +:+ k) = true.
Proof.
  induction p as [|c p IH]; simpl; [by destruct k|].
  by destruct (Ascii.ascii_dec c c).
Qed.

Lemma is_live_in_entries (st : store) (name : string) :
  is_live st name = true → name ∈ (map_to_list (entries st)).*1.
Proof.
  unfold is_live, live.
  destruct (entries st !! name) as [e|] eqn:He; [|done]. intros _.
  apply list_elem_of_fmap. exists (name, e). split; [done|].
  by apply elem_of_map_to_list.
Qed.

Lemma elem_of_matching_keys (glob : string → string → bool) (pattern : string)
    (st : store) (name : string) :
  name ∈ matching_keys glob pattern st
  ↔ is_live st name = true ∧ glob pattern name = true.
Proof.
  unfold matching_keys. rewrite list_elem_of_filter. split; [tauto|].
  intros [Hl Hg]. split; [done | by apply is_live_in_entries].
Qed.

Lemma NoDup_matching_keys (glob : string → string → bool) (pattern : string)
    (st : store) :
  NoDup (matching_keys glob pattern st).
Proof.
  unfold matching_keys. apply NoDup_filter, NoDup_fst_map_to_list.
Qed.

Lemma is_live_remove_ne (st : store) (name name' : string) :
  name ≠ name' → is_live (remove st name) name' = is_live st name'.
Proof. intros Hne. unfold is_live. by rewrite live_remove_ne. Qed.

(** DEL of distinct names that are all there removes as many. *)
Lemma delete_all_live_count (names : list string) (st : store) :
  NoDup names → Forall (λ name, is_live st name = true) names →
  (delete_all names st).1 = Z.of_nat (length names).
Proof.
  intros Hnd. revert st.
  induction Hnd as [|n names Hfresh _ IH]; intros st Hall; [done|].
  apply Forall_cons in Hall as [Hn Hall]. cbn [delete_all length].
  unfold is_live in Hn. destruct (live st n) as [e|]; [|done].
  assert (Forall (λ name, is_live (remove st n) name = true) names) as Hrest.
  { apply Forall_forall. intros name Hin.
    rewrite is_live_remove_ne; [by apply (proj1 (Forall_forall _ _) Hall)|].
    by intros ->. }
  specialize (IH (remove st n) Hrest).
  destruct (delete_all names (remove st n)). cbn [fst] in *. lia.
Qed.

(** What [clear] does on the reference store when there is a prefix. *)
Lemma run_clear_store `{Pickle} (glob : string → string → bool)
    (self : RedisCache) (st : store) :
  nonempty (key_prefix self) = true →
  let keys := matching_keys glob (key_prefix self +:+ "*") st in
  store_xrun glob (clear self) st
  = (Ret (PyInt (delete_all keys st).1), (delete_all keys st).2,
     Ext (XKeys (key_prefix self +:+ "*"))
     :: match keys with [] => [] | _ => [Base (CDelete keys)] end).
Proof.
  intros Hp keys. unfold store_xrun, clear. rewrite Hp.
  unfold client_keys, client_delete_names, xcall.
  cbn [mbind xprog_mbind xprog_bind xrun any_call xclient_call store_xclient].
  fold keys. destruct keys as [|k keys'] eqn:Hkeys; [done|].
  cbn [xprog_bind xrun any_call client_call store_client].
  by destruct (delete_all (k :: keys') st).
Qed.

(** X17.  On the reference store, when the cache has a prefix and the
    server's matcher takes the pattern [prefix*] for "starts with the
    prefix", [clear] removes exactly the names that start with the prefix and
    returns how many there were; names that do not start with it keep their
    entries; every key of this cache then reads as missing; FLUSHDB is not
    called. *)
Theorem clear_prefix `{Pickle} (glob : string → string → bool)
    (self : RedisCache) (st : store) :
  nonempty (key_prefix self) = true →
  (∀ name, glob (key_prefix self +:+ "*") name
           = String.prefix (key_prefix self) name) →
  let found := matching_keys glob (key_prefix self +:+ "*") st in
  let st' := (store_xrun glob (clear self) st).1.2 in
  (store_xrun glob (clear self) st).1.1 = Ret (PyInt (Z.of_nat (length found))) ∧
  NoDup found ∧
  (∀ name, name ∈ found
           ↔ is_live st name = true ∧ String.prefix (key_prefix self) name = true) ∧
  (∀ name, String.prefix (key_prefix self) name = true → live st' name = None) ∧
  (∀ name, String.prefix (key_prefix self) name = false →
           live st' name = live st name) ∧
  (∀ key, (run (get self key) st').1.1 = Ret PyNone) ∧
  Ext XFlushdb ∉ (store_xrun glob (clear self) st).2.
Proof.
  intros Hp Hglob found st'. subst st'.
  rewrite (run_clear_store glob self st Hp). fold found. cbn [fst snd].
  assert (Hfound : ∀ name, name ∈ found
            ↔ is_live st name = true
              ∧ String.prefix (key_prefix self) name = true).
  { intros name. subst found. by rewrite elem_of_matching_keys, Hglob. }
  assert (Hgone : ∀ name, String.prefix (key_prefix self) name = true →
            live (delete_all found st).2 name = None).
  { intros name Hname.
    destruct (live_delete_all found st name) as [Hin Hout].
    destruct (decide (name ∈ found)) as [Hmem|Hmem]; [auto|].
    rewrite (Hout Hmem).
    destruct (live st name) as [e|] eqn:Hlive; [|done].
    exfalso. apply Hmem, Hfound. unfold is_live. by rewrite Hlive. }
  split; [|split; [|split; [|split; [|split; [|split]]]]].
  - do 2 f_equal. apply delete_all_live_count.
    + apply NoDup_matching_keys.
    + apply Forall_forall. intros name Hin. by apply Hfound in Hin as [? _].
  - apply NoDup_matching_keys.
  - exact Hfound.
  - exact Hgone.
  - intros name Hname.
    destruct (live_delete_all found st name) as [_ Hout]. apply Hout.
    intros [_ Hpre]%Hfound. congruence.
  - intros key. rewrite run_get_store. cbn [fst]. unfold physical.
    by rewrite Hgone by apply prefix_append.
  - destruct found; intros Hin; repeat (apply elem_of_cons in Hin as [Hin|Hin];
      [discriminate|]); by apply elem_of_nil in Hin.
Qed.

Lemma literal_glob_prefix (name : string) :
  literal_glob "p:*" name = String.prefix "p:" name.
Proof.
  destruct name as [|c1 [|c2 name]]; cbn [literal_glob String.prefix];
    repeat match goal with
    | |- context [Ascii.eqb ?a ?c] =>
        destruct (Ascii.eqb_spec a c) as [<-|?]; cbn [andb]
    | |- context [Ascii.ascii_dec ?a ?c] =>
        destruct (Ascii.ascii_dec a c); try done
    end; simpl; first [done | by destruct name].
Qed.

Lemma clear_prefix_witness :
  let self := Build_RedisCache 300 None "p:" in
  let st := Store 0 {[ "p:a"%string := Entry (lit "1") None;
                       "p:b"%string := Entry (lit "2") None;
                       "q:c"%string := Entry (lit "3") None ]} in
  let st' := (store_xrun literal_glob (clear self) st).1.2 in
  (store_xrun literal_glob (clear self) st).1.1 = Ret (PyInt 2) ∧
  live st' "p:a" = None ∧ live st' "p:b" = None ∧
  live st' "q:c" = Some (Entry (lit "3") None).
Proof.
  intros self st st'.
  destruct (clear_prefix literal_glob self st eq_refl literal_glob_prefix)
    as (Hcount & _ & _ & Hgone & Hkept & _).
  split; [etransitivity; [exact Hcount | reflexivity]|].
  split; [by apply Hgone|]. split; [by apply Hgone|].
  etransitivity; [by apply Hkept | reflexivity].
Defined.

(** X18.  A cache without a prefix clears by FLUSHDB alone, for every
    client.  On the reference store this empties the database: afterwards
    every key reads as missing through any cache, whatever its prefix. *)
Theorem clear_without_prefix `{Pickle} {St : Type} `{!Client St}
    `{!XClient St} (glob : string → string → bool) (self other : RedisCache)
    (key : string) (s : St) (st : store) :
  nonempty (key_prefix self) = false →
  (xrun (clear self) s).2 = [Ext XFlushdb] ∧
  (store_xrun glob (clear self) st).1.1 = Ret (PyBool true) ∧
  (run (get other key) (store_xrun glob (clear self) st).1.2).1.1 = Ret PyNone.
Proof.
  intros Hp. unfold store_xrun, clear. rewrite Hp.
  unfold client_flushdb, xcall.
  cbn [mbind xprog_mbind xprog_bind xrun any_call].
  split; [by destruct (xclient_call XFlushdb s) as [[b|e] s']|].
  split; [done|]. by rewrite run_get_store.
Qed.

Lemma clear_without_prefix_witness :
  let self := Build_RedisCache 300 None "" in
  let other := Build_RedisCache 300 None "q:" in
  let st := Store 0 {[ "q:c"%string := Entry (lit "3") None ]} in
  (run (get other "c") st).1.1 = Ret (PyInt 3) ∧
  (run (get other "c") (store_xrun literal_glob (clear self) st).1.2).1.1
  = Ret PyNone.
Proof.
  intros self other st. split; [reflexivity|].
  apply (@clear_without_prefix _ store store_client
           (store_xclient literal_glob) literal_glob self other "c" st st).
  reflexivity.
Defined.

(** ** [add] *)

(** X19.  On the reference store [add] on a key that is missing or has run
    out, with a timeout that normalizes to a positive number, returns true and
    leaves the store exactly as [set] would. *)
Theorem add_as_set `{Pickle} (self : RedisCache) (key : string)
    (value : PyVal) (timeout : option Z) (dump : bytes) (st : store) :
  dump_object value = Ret dump →
  live st (key_prefix self +:+ key) = None →
  0 < _normalize_timeout self timeout →
  (run (add self key value timeout) st).1
  = (Ret true, (run (set self key value timeout) st).1.2).
Proof.
  intros Hdump Hfree Ht.
  rewrite (run_set_store self key value timeout dump st Hdump).
  destruct (Z.eqb_spec (_normalize_timeout self timeout) (-1)); [lia|].
  destruct (Z.leb_spec (_normalize_timeout self timeout) 0) as [|Hpos]; [lia|].
  unfold add. rewrite Hdump.
  unfold client_setnx, client_expire, call, physical.
  cbn [lift mbind prog_mbind prog_bind run client_call store_client].
  rewrite Hfree. cbn [run client_call store_client].
  rewrite live_put. cbn [fst snd payload].
  destruct (Z.leb_spec (_normalize_timeout self timeout) 0); [lia|].
  by rewrite put_put.
Qed.

Lemma add_as_set_witness :
  let self := Build_RedisCache 300 None "p:" in
  let st := Store 9 {[ "p:k"%string := Entry (lit "old") (Some 9) ]} in
  (run (add self "k" (PyInt 1) None) st).1
  = (Ret true, (run (set self "k" (PyInt 1) None) st).1.2).
Proof.
  intros self st.
  apply (add_as_set self "k" (PyInt 1) None (lit "1") st);
    [reflexivity | reflexivity | done].
Defined.

Lemma add_sentinel_expire_witness :
  let self := Build_RedisCache 0 None "p:" in
  ∃ st',
    run (add self "k" (PyInt 1) None) (Store 0 ∅)
    = (Ret true, st', [CSetnx "p:k" (lit "1"); CExpire "p:k" (-1)]) ∧
    live st' "p:k" = None.
Proof.
  intros self.
  destruct (add_sentinel_expire self "k" (PyInt 1) (lit "1") (Store 0 ∅))
    as (st' & Hrun & Hgone); [reflexivity | reflexivity |].
  exists st'. split; [|exact Hgone]. exact Hrun.
Defined.

(** X20.  With a timeout that normalizes to [-1], [add] on a key that is
    missing or has run out sends SETNX and then EXPIRE with [-1].  On the
    reference store a deadline that is not in the future removes the key:
    [add] returns true and the key reads as missing at once. *)
Theorem add_without_expiry_removes_key `{Pickle} (self : RedisCache)
    (key : string) (value : PyVal) (timeout : option Z) (dump : bytes)
    (st : store) :
  dump_object value = Ret dump →
  live st (key_prefix self +:+ key) = None →
  _normalize_timeout self timeout = -1 →
  let name := key_prefix self +:+ key in
  (run (add self key value timeout) st).1.1 = Ret true ∧
  (run (add self key value timeout) st).2 = [CSetnx name dump; CExpire name (-1)] ∧
  (run (get self key) (run (add self key value timeout) st).1.2).1.1
  = Ret PyNone.
Proof.
  intros Hdump Hfree Ht name.
  assert (run (add self key value timeout) st
          = (Ret true, remove (put st name (Entry dump None)) name,
             [CSetnx name dump; CExpire name (-1)])) as Hrun.
  { unfold add. rewrite Hdump, Ht.
    unfold client_setnx, client_expire, call, physical. subst name.
    cbn [lift mbind prog_mbind prog_bind run client_call store_client].
    rewrite Hfree. cbn [run client_call store_client].
    by rewrite live_put. }
  rewrite Hrun. cbn [fst snd]. repeat split.
  rewrite run_get_store. unfold physical. fold name.
  by rewrite live_remove_eq.
Qed.

Lemma add_without_expiry_removes_key_witness :
  let self := Build_RedisCache 300 None "p:" in
  (run (add self "k" (PyInt 1) (Some 0)) (Store 0 ∅)).1.1 = Ret true ∧
  (run (add self "k" (PyInt 1) (Some 0)) (Store 0 ∅)).2
  = [CSetnx "p:k" (lit "1"); CExpire "p:k" (-1)] ∧
  (run (get self "k")
     (run (add self "k" (PyInt 1) (Some 0)) (Store 0 ∅)).1.2).1.1
  = Ret PyNone.
Proof.
  intros self.
  apply (add_without_expiry_removes_key self "k" (PyInt 1) (Some 0)
           (lit "1") (Store 0 ∅)); reflexivity.
Defined.

(** ** From the constructor to [set] *)

(** X21.  For a cache made by [__init__] from a string host, [set] without a
    timeout uses the constructor's [default_timeout]: a default of [0] (or
    [-1]) makes it a plain SET, any other default a SETEX with that many
    seconds; the name sent is the constructor's prefix, or nothing when the
    prefix is [None], followed by the key. *)
Theorem init_default_timeout `{Pickle} {St : Type} `{!Client St}
    (redis : redis_module) (address : string) (port : Z)
    (password : option string) (db : Z) (seconds : Z)
    (prefix : option string) (kwargs : gmap string PyVal) (self : RedisCache)
    (key : string) (value : PyVal) (dump : bytes) (s : St) :
  __init__ redis (HostStr address) port password db seconds prefix
    kwargs = Ret self →
  dump_object value = Ret dump →
  let name := or_empty prefix +:+ key in
  or_empty prefix = match prefix with Some p => p | None => EmptyString end ∧
  (seconds = 0 ∨ seconds = -1 →
   run (set self key value None) s
   = (let '(ack, s') := client_call (CSet name dump) s in
      (ack, s', [CSet name dump]))) ∧
  (seconds ≠ 0 → seconds ≠ -1 →
   run (set self key value None) s
   = (let '(ack, s') := client_call (CSetex name dump seconds) s in
      (ack, s', [CSetex name dump seconds]))).
Proof.
  intros Hinit Hdump name.
  assert (default_timeout self = seconds ∧ key_prefix self = or_empty prefix)
    as [Hdt Hpre].
  { unfold __init__ in Hinit.
    destruct redis as [redis_Redis|]; [|done].
    destruct (wants_decode_responses kwargs); [done|].
    destruct (redis_Redis address port password db kwargs); [|done].
    by injection Hinit as <-. }
  split.
  { destruct prefix as [p|]; [|done]. unfold or_empty, nonempty.
    by case_bool_decide. }
  unfold set, _normalize_timeout, BaseCache_normalize_timeout, physical.
  rewrite Hdump, Hdt, Hpre. fold name.
  cbn [lift mbind prog_mbind prog_bind]. split.
  - intros [->| ->]; apply (run_call (CSet name dump)).
  - intros H0 H1. apply Z.eqb_neq in H0 as ->. apply Z.eqb_neq in H1 as ->.
    apply (run_call (CSetex name dump seconds)).
Qed.

Lemma init_default_timeout_witness :
  let self := Build_RedisCache 0 (Some (Redis "localhost" 6379 None 0 ∅)) "" in
  __init__ (Some redis_py) (HostStr "localhost") 6379 None 0 0 None ∅
  = Ret self ∧
  run (set self "k" (PyInt 7) None) (Store 0 ∅)
  = (Ret (Some true), Store 0 {[ "k"%string := Entry (lit "7") None ]},
     [CSet "k" (lit "7")]).
Proof.
  intros self.
  assert (Hinit : __init__ (Some redis_py) (HostStr "localhost") 6379 None 0 0
                    None ∅ = Ret self) by reflexivity.
  split; [exact Hinit|].
  destruct (init_default_timeout (Some redis_py) "localhost" 6379 None 0 0
              None ∅ self
              "k" (PyInt 7) (lit "7") (Store 0 ∅) Hinit eq_refl)
    as (_ & Hplain & _).
  rewrite Hplain by (by left). reflexivity.
Defined.
